(** * The tag store of graph/tags.go

    A shallow embedding of the reference store ([TagStore]) and of its
    pull/push pools, followed by the properties the specification states
    about them.

    Go maps are [gmap]s.  The persistence file and the outcome of writing
    it are explicit components of the state ([World]).  Code of other
    packages that tags.go calls (registry, parsers, utils, the image
    graph) and the iteration order of Go's [range] over a map are
    collected in an environment record ([Env]); theorems hold for every
    environment, closed examples use [demo.env]. *)

From stdpp Require Import gmap strings list fin_maps sorting.
From Stdlib Require Import Ascii String.

Open Scope string_scope.

(** ** Go library functions on strings *)

Module strings.

(** [strings.HasPrefix(s, prefix)] *)
Definition HasPrefix (s pre : string) : bool := String.prefix pre s.

(** [strings.Contains(s, sep)] for a one-byte separator. *)
Fixpoint Contains (s : string) (c : ascii) : bool :=
  match s with
  | EmptyString => false
  | String a s' => if Ascii.eqb a c then true else Contains s' c
  end.

(** [strings.Split(s, sep)] for a one-byte separator: every field
    between separators, empty ones included. *)
Fixpoint Split (s : string) (c : ascii) : list string :=
  match s with
  | EmptyString => [EmptyString]
  | String a s' =>
      if Ascii.eqb a c then EmptyString :: Split s' c
      else match Split s' c with
           | h :: t => String a h :: t
           | [] => [String a EmptyString]
           end
  end.

(** [strings.SplitN(s, sep, 2)]: cut at the first separator only. *)
Fixpoint SplitN2 (s : string) (c : ascii) : list string :=
  match s with
  | EmptyString => [EmptyString]
  | String a s' =>
      if Ascii.eqb a c then [EmptyString; s']
      else match SplitN2 s' c with
           | h :: t => String a h :: t
           | [] => [String a EmptyString]
           end
  end.

(** [strings.ToLower] on ASCII letters. *)
Definition lower_ascii (a : ascii) : ascii :=
  let n := nat_of_ascii a in
  if (65 <=? n)%nat && (n <=? 90)%nat then ascii_of_nat (n + 32) else a.

Fixpoint ToLower (s : string) : string :=
  match s with
  | EmptyString => EmptyString
  | String a s' => String (lower_ascii a) (ToLower s')
  end.

End strings.

(** [sort.Strings]: ascending byte-wise order.  Equal strings are
    indistinguishable, so every sorting algorithm computes the same list. *)
Definition string_le (a b : string) : Prop := String.leb a b = true.

#[local] Instance string_le_dec a b : Decision (string_le a b) :=
  decide (String.leb a b = true).

Definition sort_Strings (l : list string) : list string :=
  merge_sort string_le l.

(** ** Data model *)

(** [type Repository map[string]string]: reference key (tag or digest) to
    image ID. *)
Abbreviation Repository := (gmap string string).

(** [map[string]Repository], the type of [TagStore.Repositories]. *)
Abbreviation RepoMap := (gmap string (gmap string string)).

(** [image.Image]; only the [ID] field is read by tags.go. *)
Record Image := { ID : string }.

Definition DEFAULTTAG : string := "latest".

(** Every [fmt.Errorf] / [errors.New] site of tags.go is a constructor;
    [ErrExternal] stands for an error value produced outside tags.go (the
    operating system, encoding/json, the image graph). *)
Inductive error : Type :=
| ErrExternal (msg : string)
| ErrNoSuchReference (repoName ref : string)
| ErrNoSuchRepository (repoName : string)
| ErrConflictTag (tag old : string)
| ErrConflictDigest (digest oldID : string)
| ErrRepoNameEmpty
| ErrScratchReserved
| ErrTagNameEmpty
| ErrIllegalTagName (name : string)
| ErrDigestEmpty
| ErrIllegalDigest (dgst : string)
| ErrPullInProgress (key : string)
| ErrPushInProgress (key : string)
| ErrUnknownPoolType.

(** The text of each error, as the format strings of tags.go produce it. *)
Definition Error (e : error) : string :=
  match e with
  | ErrExternal msg => msg
  | ErrNoSuchReference r f => "No such reference: " +:+ r +:+ ":" +:+ f
  | ErrNoSuchRepository r => "No such repository: " +:+ r
  | ErrConflictTag t old =>
      "Conflict: Tag " +:+ t +:+ " is already set to image " +:+ old
      +:+ ", if you want to replace it, please use -f option"
  | ErrConflictDigest d old =>
      "Conflict: Digest " +:+ d +:+ " is already set to image " +:+ old
  | ErrRepoNameEmpty => "Repository name can't be empty"
  | ErrScratchReserved => "'scratch' is a reserved name"
  | ErrTagNameEmpty => "tag name can't be empty"
  | ErrIllegalTagName n =>
      "Illegal tag name (" +:+ n
      +:+ "): only [A-Za-z0-9_.-] are allowed, minimum 1, maximum 128 in length"
  | ErrDigestEmpty => "digest can't be empty"
  | ErrIllegalDigest d =>
      "illegal digest (" +:+ d
      +:+ "): must be of the form [a-zA-Z0-9-_+.]+:[a-fA-F0-9]+"
  | ErrPullInProgress k => "pull " +:+ k +:+ " is already in progress"
  | ErrPushInProgress k => "push " +:+ k +:+ " is already in progress"
  | ErrUnknownPoolType => "Unknown pool type"
  end.

(** A Conflict error is one whose text starts with [Conflict:]. *)
Definition is_Conflict (e : error) : bool :=
  strings.HasPrefix (Error e) "Conflict:".

(** A Go call either returns or panics (nil dereference, slice out of
    range). *)
Inductive result (A : Type) : Type :=
| Return (a : A)
| Panic (reason : string).
Arguments Return {A} a.
Arguments Panic {A} reason.

(** ** The persistence file

    The file at [store.path] is modelled by what [reload] can get out of
    it.  [FileDoc d] is a file holding the JSON document
    [{"Repositories": d}]; [FileUnreadable] is a file [ioutil.ReadFile]
    fails on (for instance a missing one); [FileCorrupt] holds bytes that
    are not JSON, which [json.Unmarshal] rejects before storing anything. *)
Inductive FileState : Type :=
| FileUnreadable (e : error)
| FileCorrupt (e : error)
| FileDoc (d : RepoMap).

(** What one call of [ioutil.WriteFile] does: it succeeds, or it fails
    with an error and leaves the file in some state. *)
Inductive WriteOutcome : Type :=
| WriteOk
| WriteFails (e : error) (after : FileState).

(** A completion signal is a Go channel [chan struct{}]: an address into
    the heap of channels, where [true] means closed. *)
Abbreviation chan := nat (only parsing).

(** The fields of [TagStore] that the code below reads and writes. *)
Record TagStore : Type := {
  Repositories : RepoMap;
  pullingPool : gmap string chan;
  pushingPool : gmap string chan;
}.

(** The store together with what surrounds it: the persistence file, the
    outcomes of the writes still to come (none listed: they succeed), and
    the heap of channels. *)
Record World : Type := {
  store : TagStore;
  file : FileState;
  writes : list WriteOutcome;
  chans : list bool;
}.

Definition set_Repositories (r : RepoMap) (w : World) : World :=
  {| store := {| Repositories := r;
                 pullingPool := pullingPool (store w);
                 pushingPool := pushingPool (store w) |};
     file := file w; writes := writes w; chans := chans w |}.

Definition repos (w : World) : RepoMap := Repositories (store w).

(** ** Environment: code outside tags.go, and map iteration order *)

Record Env : Type := {
  (** [registry.NormalizeLocalName] *)
  NormalizeLocalName : string → string;
  (** [registry.SplitReposName(name, fixMissingIndex)] *)
  SplitReposName : string → bool → string * string;
  (** [registry.RepositoryNameHasIndex] *)
  RepositoryNameHasIndex : string → bool;
  (** [registry.RegistryList] *)
  RegistryList : list string;
  (** [parsers.ParseRepositoryTag] *)
  ParseRepositoryTag : string → string * string;
  (** [utils.ImageReference] *)
  ImageReference : string → string → string;
  (** [Graph.Get]: an image pointer (possibly nil) and an error
      (possibly nil). *)
  graph_Get : string → option Image * option error;
  (** The order in which [range] visits the entries of
      [store.Repositories], and of one [Repository]. *)
  range_repos : RepoMap → list (string * gmap string string);
  range_refs : gmap string string → list (string * string);
}.

(** Go visits every entry of a map exactly once, in an unspecified order. *)
Definition range_ok (env : Env) : Prop :=
  (∀ m, range_repos env m ≡ₚ map_to_list m) ∧
  (∀ m, range_refs env m ≡ₚ map_to_list m).

(** ** Go's regexp package, as far as the two patterns of tags.go need it *)

Module regexp.

(** Syntax of the patterns: a character class, concatenation, bounded
    or unbounded repetition, and the two text anchors.  [a+] is
    [Repeat a 1 None], [a{0,127}] is [Repeat a 0 (Some 127)]. *)
Inductive re : Type :=
| Class (p : ascii → bool)
| Cat (a b : re)
| Repeat (a : re) (min : nat) (max : option nat)
| BeginText
| EndText.

(** A matcher state: are we still at the beginning of the text, and what
    is left of it. *)
Definition state : Type := bool * list ascii.

(** [upto step n st]: the states reached from [st] by at most [n] steps. *)
Definition upto (step : state → list state) : nat → state → list state :=
  fix go (n : nat) (st : state) : list state :=
    st :: match n with
          | O => []
          | S n' => flat_map (go n') (step st)
          end.

(** [exactly step n sts]: the states reached by exactly [n] steps. *)
Definition exactly (step : state → list state) : nat → list state → list state :=
  fix go (n : nat) (sts : list state) : list state :=
    match n with
    | O => sts
    | S n' => go n' (flat_map step sts)
    end.

(** All states in which a match of [r] that starts in [st] can end.  An
    unbounded repetition is cut after one round per remaining
    character, further rounds cannot reach a new state. *)
Fixpoint run (r : re) (st : state) : list state :=
  match r with
  | Class p =>
      match snd st with
      | c :: rest => if p c then [(false, rest)] else []
      | [] => []
      end
  | Cat a b => flat_map (run b) (run a st)
  | Repeat a min max =>
      let extra := match max with
                   | Some m => m - min
                   | None => List.length (snd st)
                   end in
      flat_map (upto (run a) extra) (exactly (run a) min [st])
  | BeginText => if fst st then [st] else []
  | EndText => match snd st with [] => [st] | _ => [] end
  end.

Definition matches_at (r : re) (s : list ascii) (i : nat) : bool :=
  match run r (Nat.eqb i 0, drop i s) with
  | [] => false
  | _ :: _ => true
  end.

(** [Regexp.MatchString]: does some substring of [s] match? *)
Definition MatchString (r : re) (s : string) : bool :=
  let l := list_ascii_of_string s in
  existsb (matches_at r l) (seq 0 (S (List.length l))).

Definition in_range (lo hi c : ascii) : bool :=
  (nat_of_ascii lo <=? nat_of_ascii c)%nat && (nat_of_ascii c <=? nat_of_ascii hi)%nat.

(** [\w], which in Go is [0-9A-Za-z_]. *)
Definition word (c : ascii) : bool :=
  in_range "0" "9" c || in_range "A" "Z" c || in_range "a" "z" c || Ascii.eqb c "_".

(** [[\w.-]] *)
Definition word_dot_dash (c : ascii) : bool :=
  word c || Ascii.eqb c "." || Ascii.eqb c "-".

(** [[a-zA-Z0-9-_+.]] *)
Definition digest_algo (c : ascii) : bool :=
  in_range "a" "z" c || in_range "A" "Z" c || in_range "0" "9" c
  || Ascii.eqb c "-" || Ascii.eqb c "_" || Ascii.eqb c "+" || Ascii.eqb c ".".

(** [[a-fA-F0-9]] *)
Definition hex (c : ascii) : bool :=
  in_range "a" "f" c || in_range "A" "F" c || in_range "0" "9" c.

End regexp.

Import regexp.

(** [validTagName = regexp.MustCompile(`^[\w][\w.-]{0,127}$`)] *)
Definition validTagName : re :=
  Cat BeginText
    (Cat (Class word)
       (Cat (Repeat (Class word_dot_dash) 0 (Some 127)) EndText)).

(** [validDigest = regexp.MustCompile(`[a-zA-Z0-9-_+.]+:[a-fA-F0-9]+`)] *)
Definition validDigest : re :=
  Cat (Repeat (Class digest_algo) 1 None)
    (Cat (Class (Ascii.eqb ":")) (Repeat (Class hex) 1 None)).

(** ** Validation *)

Definition validateRepoName (name : string) : option error :=
  if String.eqb name EmptyString then Some ErrRepoNameEmpty
  else if String.eqb name "scratch" then Some ErrScratchReserved
  else None.

Definition ValidateTagName (name : string) : option error :=
  if String.eqb name EmptyString then Some ErrTagNameEmpty
  else if negb (MatchString validTagName name) then Some (ErrIllegalTagName name)
  else None.

Definition validateDigest (dgst : string) : option error :=
  if String.eqb dgst EmptyString then Some ErrDigestEmpty
  else if negb (MatchString validDigest dgst) then Some (ErrIllegalDigest dgst)
  else None.

(** ** Persistence *)

Definition set_file (f : FileState) (rest : list WriteOutcome) (w : World) : World :=
  {| store := store w; file := f; writes := rest; chans := chans w |}.

(** [save]: marshal the store and write the file.  [json.Marshal] cannot
    fail on a map of maps of strings, so the only failure is that of
    [ioutil.WriteFile].  The store itself is not touched. *)
Definition save (w : World) : option error * World :=
  match writes w with
  | [] => (None, set_file (FileDoc (repos w)) [] w)
  | WriteOk :: rest => (None, set_file (FileDoc (repos w)) rest w)
  | WriteFails e after :: rest => (Some e, set_file after rest w)
  end.

(** [reload]: read the file and unmarshal it into the store.
    [json.Unmarshal] decodes into the existing non-nil map
    [store.Repositories]: it keeps the entries already there and stores
    each repository of the document under its name, as a fresh
    [Repository].  A repository of the file thus replaces the one in
    memory of the same name, and a repository only in memory stays. *)
Definition reload (w : World) : option error * World :=
  match file w with
  | FileUnreadable e => (Some e, w)
  | FileCorrupt e => (Some e, w)
  | FileDoc d => (None, set_Repositories (d ∪ repos w) w)
  end.

(** ** Reads *)

Section Store.
Context (env : Env).

(** A result entry is a one-entry map [{name: r}], here the pair
    [(name, r)].  [r] is the map object stored under [name] in
    [store.Repositories], not a copy. *)
Definition lookup_entry (rs : RepoMap) (name : string)
  : list (string * gmap string string) :=
  match rs !! name with
  | Some r => [(name, r)]
  | None => []
  end.

(** The loop over [registry.RegistryList]; index 0 is skipped. *)
Definition additional_matches (rs : RepoMap) (repoName : string)
  : list (string * gmap string string) :=
  flat_map
    (λ reg, lookup_entry rs (NormalizeLocalName env (reg +:+ "/" +:+ repoName)))
    (drop 1 (RegistryList env)).

(** The condition of the loop over [store.Repositories]. *)
Definition is_other_match (repoName : string) (name : string) : bool :=
  let '(indexName, remoteName) := SplitReposName env name false in
  negb (String.eqb indexName EmptyString)
  && String.eqb remoteName repoName
  && negb (bool_decide (indexName ∈ RegistryList env)).

Definition other_matches (rs : RepoMap) (repoName : string)
  : list (string * gmap string string) :=
  filter (λ e, is_other_match repoName (fst e) = true) (range_repos env rs).

Definition getRepositoryList (rs : RepoMap) (repoName : string)
  : list (string * gmap string string) :=
  lookup_entry rs repoName
  ++ lookup_entry rs (NormalizeLocalName env repoName)
  ++ (if RepositoryNameHasIndex env repoName then []
      else additional_matches rs repoName ++ other_matches rs repoName).

(** First pass of [GetImage]: the first candidate holding the key. *)
Fixpoint find_exact (matching : list (string * gmap string string))
    (refOrID : string) : option string :=
  match matching with
  | [] => None
  | (_, repoRefs) :: rest =>
      match repoRefs !! refOrID with
      | Some revision => Some revision
      | None => find_exact rest refOrID
      end
  end.

(** Second pass: the first ID, in iteration order, that [refOrID] is a
    prefix of. *)
Fixpoint find_prefix (matching : list (string * gmap string string))
    (refOrID : string) : option string :=
  match matching with
  | [] => None
  | (_, repoRefs) :: rest =>
      match List.find (λ e, strings.HasPrefix (snd e) refOrID) (range_refs env repoRefs) with
      | Some (_, revision) => Some revision
      | None => find_prefix rest refOrID
      end
  end.

(** [GetImage] takes the lock and reads the store in memory; it does
    not call [reload]. *)
Definition GetImage (repoName refOrID : string) (w : World)
  : option Image * option error :=
  let matching := getRepositoryList (repos w) repoName in
  match find_exact matching refOrID with
  | Some revision => graph_Get env revision
  | None =>
      match find_prefix matching refOrID with
      | Some revision => graph_Get env revision
      | None => (None, None)
      end
  end.

Definition LookupImage (name : string) (w : World)
  : option Image * option error :=
  let '(repoName, ref) := ParseRepositoryTag env name in
  let ref := if String.eqb ref EmptyString then DEFAULTTAG else ref in
  match GetImage repoName ref w with
  | (_, Some err) => (None, Some err)
  | (Some img, None) => (Some img, None)
  | (None, None) =>
      match graph_Get env name with
      | (_, Some err) => (None, Some err)
      | (img, None) => (img, None)
      end
  end.

(** [Get] reloads, then answers with the first candidate. *)
Definition Get (repoName : string) (w : World)
  : (option (gmap string string) * option error) * World :=
  match reload w with
  | (Some err, w1) => ((None, Some err), w1)
  | (None, w1) =>
      match getRepositoryList (repos w1) repoName with
      | (_, repoRefs) :: _ => ((Some repoRefs, None), w1)
      | [] => ((None, None), w1)
      end
  end.

(** [ByID]: the body of the inner loop, for one reference. *)
Definition ByID_add (byID : gmap string (list string)) (id name : string)
  : gmap string (list string) :=
  match byID !! id with
  | None => <[id := [name]]> byID
  | Some names => <[id := sort_Strings (names ++ [name])%list]> byID
  end.

(** [ByID] takes the lock and reads the store in memory; it does not
    call [reload]. *)
Definition ByID (w : World) : gmap string (list string) :=
  foldl
    (λ byID '(repoName, repository),
       foldl
         (λ byID '(tag, id), ByID_add byID id (ImageReference env repoName tag))
         byID (range_refs env repository))
    ∅ (range_repos env (repos w)).

(** ** Mutations *)

(** The loop of [Delete] over the candidates.  [err] is the variable
    of that name, [None] for nil.  [repoRefs] is the map stored under
    [name], so deleting from it changes the store. *)
Fixpoint Delete_loop (matching : list (string * gmap string string))
    (repoName ref : string) (err : option error) (w : World)
  : (bool * option error) * World :=
  match matching with
  | [] =>
      match err with
      | Some e => ((false, Some e), w)
      | None => ((false, Some (ErrNoSuchRepository repoName)), w)
      end
  | (name, repoRefs) :: rest =>
      if String.eqb ref EmptyString then
        let '(e, w') := save (set_Repositories (delete name (repos w)) w) in
        ((true, e), w')
      else
        match repoRefs !! ref with
        | Some _ =>
            let repoRefs' := delete ref repoRefs in
            let rs' :=
              if Nat.eqb (size repoRefs') 0 then delete name (repos w)
              else <[name := repoRefs']> (repos w) in
            let '(e, w') := save (set_Repositories rs' w) in
            ((true, e), w')
        | None =>
            Delete_loop rest repoName ref
              (Some (ErrNoSuchReference repoName ref)) w
        end
  end.

Definition Delete (repoName ref : string) (w : World)
  : (bool * option error) * World :=
  match reload w with
  | (Some err, w1) => ((false, Some err), w1)
  | (None, w1) =>
      Delete_loop (getRepositoryList (repos w1) repoName) repoName ref None w1
  end.

(** The name a repository is stored under, as [SetLoad] and
    [SetDigest] compute it. *)
Definition stored_name (repoName : string) (keepUnqualified : bool) : string :=
  let normalized := NormalizeLocalName env repoName in
  if keepUnqualified && negb (RepositoryNameHasIndex env repoName)
  then snd (SplitReposName env normalized false)
  else normalized.

(** [repo[tag] = img.ID; return store.save()], where [repo] is the map
    stored under [normalized]. *)
Definition bind_and_save (normalized key : string) (repo : gmap string string)
    (img : option Image) (w : World) : result (option error) * World :=
  match img with
  | None => (Panic "nil pointer dereference", w)
  | Some i =>
      let '(e, w') :=
        save (set_Repositories (<[normalized := <[key := ID i]> repo]> (repos w)) w) in
      (Return e, w')
  end.

Definition rename_notice (normalized tag old12 : string) : string :=
  "The image " +:+ normalized +:+ ":" +:+ tag
  +:+ " already exists, renaming the old one with ID " +:+ old12
  +:+ " to empty string" +:+ String (ascii_of_nat 10) EmptyString.

(** [out] is the writer: [None] for nil, else the text written so far. *)
Definition SetLoad (repoName tag imageName : string)
    (force keepUnqualified : bool) (out : option (list string)) (w : World)
  : result (option error) * option (list string) * World :=
  match LookupImage imageName w with
  | (_, Some err) => (Return (Some err), out, w)
  | (img, None) =>
      let tag := if String.eqb tag EmptyString then DEFAULTTAG else tag in
      match validateRepoName repoName with
      | Some err => (Return (Some err), out, w)
      | None =>
      match ValidateTagName tag with
      | Some err => (Return (Some err), out, w)
      | None =>
      match reload w with
      | (Some err, w1) => (Return (Some err), out, w1)
      | (None, w1) =>
          let normalized := stored_name repoName keepUnqualified in
          match repos w1 !! normalized with
          | Some r =>
              match r !! tag with
              | Some old =>
                  if negb force then
                    (Return (Some (ErrConflictTag tag old)), out, w1)
                  else
                    match img, out with
                    | None, _ => (Panic "nil pointer dereference", out, w1)
                    | Some i, Some text =>
                        if String.eqb old (ID i) then
                          let '(res, w2) := bind_and_save normalized tag r img w1 in
                          (res, out, w2)
                        else if (String.length old <? 12)%nat then
                          (Panic "slice bounds out of range", out, w1)
                        else
                          let line :=
                            rename_notice normalized tag (substring 0 12 old) in
                          let '(res, w2) := bind_and_save normalized tag r img w1 in
                          (res, Some (text ++ [line])%list, w2)
                    | Some i, None =>
                        let '(res, w2) := bind_and_save normalized tag r img w1 in
                        (res, out, w2)
                    end
              | None =>
                  let '(res, w2) := bind_and_save normalized tag r img w1 in
                  (res, out, w2)
              end
          | None =>
              let w1' := set_Repositories (<[normalized := ∅]> (repos w1)) w1 in
              let '(res, w2) := bind_and_save normalized tag ∅ img w1' in
              (res, out, w2)
          end
      end end end
  end.

Definition Tag (repoName tag imageName : string) (force keepUnqualified : bool)
    (w : World) : result (option error) * World :=
  let '(res, _, w') := SetLoad repoName tag imageName force keepUnqualified None w in
  (res, w').

Definition SetDigest (repoName digest imageName : string)
    (keepUnqualified : bool) (w : World) : result (option error) * World :=
  match LookupImage imageName w with
  | (_, Some err) => (Return (Some err), w)
  | (img, None) =>
      match validateRepoName repoName with
      | Some err => (Return (Some err), w)
      | None =>
      match validateDigest digest with
      | Some err => (Return (Some err), w)
      | None =>
      match reload w with
      | (Some err, w1) => (Return (Some err), w1)
      | (None, w1) =>
          let normalized := stored_name repoName keepUnqualified in
          match repos w1 !! normalized with
          | None =>
              let w1' := set_Repositories (<[normalized := ∅]> (repos w1)) w1 in
              bind_and_save normalized digest ∅ img w1'
          | Some repoRefs =>
              match repoRefs !! digest with
              | Some oldID =>
                  match img with
                  | None => (Panic "nil pointer dereference", w1)
                  | Some i =>
                      if negb (String.eqb oldID (ID i)) then
                        (Return (Some (ErrConflictDigest digest oldID)), w1)
                      else bind_and_save normalized digest repoRefs img w1
                  end
              | None => bind_and_save normalized digest repoRefs img w1
              end
          end
      end end end
  end.

(** The loop of [DeleteAll] over the names of the image. *)
Fixpoint DeleteAll_loop (names : list string) (w : World) : option error * World :=
  match names with
  | [] => (None, w)
  | name :: rest =>
      let '((_, err), w') :=
        if strings.Contains name ":" then
          let nameParts := strings.Split name ":" in
          Delete (nth 0 nameParts EmptyString) (nth 1 nameParts EmptyString) w
        else Delete name EmptyString w in
      match err with
      | Some e => (Some e, w')
      | None => DeleteAll_loop rest w'
      end
  end.

Definition DeleteAll (id : string) (w : World) : option error * World :=
  match ByID w !! id with
  | None => (None, w)
  | Some [] => (None, w)
  | Some names => DeleteAll_loop names w
  end.

End Store.

(** ** The pulling and pushing pools *)

Definition set_pools (pulling pushing : gmap string chan) (hp : list bool)
    (w : World) : World :=
  {| store := {| Repositories := repos w;
                 pullingPool := pulling;
                 pushingPool := pushing |};
     file := file w; writes := writes w; chans := hp |}.

Definition poolAdd (kind key : string) (w : World)
  : (option chan * option error) * World :=
  match pullingPool (store w) !! key with
  | Some c => ((Some c, Some (ErrPullInProgress key)), w)
  | None =>
      match pushingPool (store w) !! key with
      | Some c => ((Some c, Some (ErrPushInProgress key)), w)
      | None =>
          (* c := make(chan struct{}) *)
          let c := List.length (chans w) in
          let hp := (chans w ++ [false])%list in
          if String.eqb kind "pull" then
            ((Some c, None),
             set_pools (<[key := c]> (pullingPool (store w))) (pushingPool (store w)) hp w)
          else if String.eqb kind "push" then
            ((Some c, None),
             set_pools (pullingPool (store w)) (<[key := c]> (pushingPool (store w))) hp w)
          else
            ((None, Some ErrUnknownPoolType),
             set_pools (pullingPool (store w)) (pushingPool (store w)) hp w)
      end
  end.

(** [close(c)]: closing a closed channel panics. *)
Definition close (c : chan) (hp : list bool) : result (list bool) :=
  match hp !! c with
  | Some false => Return (<[c := true]> hp)
  | Some true => Panic "close of closed channel"
  | None => Panic "close of nil channel"
  end.

Definition poolRemove (kind key : string) (w : World)
  : result (option error) * World :=
  if String.eqb kind "pull" then
    match pullingPool (store w) !! key with
    | Some c =>
        match close c (chans w) with
        | Return hp =>
            (Return None,
             set_pools (delete key (pullingPool (store w))) (pushingPool (store w)) hp w)
        | Panic msg => (Panic msg, w)
        end
    | None => (Return None, w)
    end
  else if String.eqb kind "push" then
    match pushingPool (store w) !! key with
    | Some c =>
        match close c (chans w) with
        | Return hp =>
            (Return None,
             set_pools (pullingPool (store w)) (delete key (pushingPool (store w))) hp w)
        | Panic msg => (Panic msg, w)
        end
    | None => (Return None, w)
    end
  else (Return (Some ErrUnknownPoolType), w).

(** [NewTagStore] on a path where [reload] succeeds or the file does not
    exist yet: empty maps, then the file is loaded or created. *)
Definition new_world (f : FileState) (ws : list WriteOutcome) : World :=
  {| store := {| Repositories := ∅; pullingPool := ∅; pushingPool := ∅ |};
     file := f; writes := ws; chans := [] |}.

(** The worlds a store can be in, as far as the pools are concerned:
    those reached from a store with empty pools by calls of [poolAdd] and
    [poolRemove] that return, and by steps that leave pools and channels
    alone (every other operation of the store). *)
Inductive pool_reachable : World → Prop :=
| reach_new w :
    pullingPool (store w) = ∅ → pushingPool (store w) = ∅ → chans w = [] →
    pool_reachable w
| reach_add kind key w r w' :
    pool_reachable w → poolAdd kind key w = (r, w') → pool_reachable w'
| reach_remove kind key w e w' :
    pool_reachable w → poolRemove kind key w = (Return e, w') → pool_reachable w'
| reach_other w w' :
    pool_reachable w →
    pullingPool (store w') = pullingPool (store w) →
    pushingPool (store w') = pushingPool (store w) →
    chans w' = chans w →
    pool_reachable w'.

(** ** A concrete environment for the examples *)

Module demo.

(** Modelled from the spec: [registry.RegistryList] is not under src/.
    The first entry is the public index, further entries are the
    registries added with [--add-registry]. *)
Definition RegistryList : list string := ["docker.io"; "registry.example.com"].

(** Modelled from the spec: [registry.SplitReposName] is not under
    src/.  The component before the first [/] is the index name when it
    contains [.] or [:] or is [localhost]; otherwise the name is
    unqualified, and its index is empty, or the default registry when
    [fixMissingIndex] is set. *)
Definition SplitReposName (reposName : string) (fixMissingIndex : bool)
  : string * string :=
  match strings.SplitN2 reposName "/" with
  | [first; rest] =>
      if strings.Contains first "." || strings.Contains first ":"
         || String.eqb first "localhost"
      then (first, rest)
      else (if fixMissingIndex then "docker.io" else EmptyString, reposName)
  | _ => (if fixMissingIndex then "docker.io" else EmptyString, reposName)
  end.

(** Modelled from the spec: [registry.RepositoryNameHasIndex] is not
    under src/.  A name is qualified when its index name is not empty. *)
Definition RepositoryNameHasIndex (reposName : string) : bool :=
  negb (String.eqb (fst (SplitReposName reposName false)) EmptyString).

Definition strip_library (remoteName : string) : string :=
  if String.prefix "library/" remoteName
  then substring 8 (String.length remoteName - 8) remoteName
  else remoteName.

(** Modelled from the spec: [registry.NormalizeLocalName] is not under
    src/.  The index name is put in lower case, the default registry is
    prepended when there is no index, and for the public index the
    [library/] prefix is dropped. *)
Definition NormalizeLocalName (name : string) : string :=
  let '(indexName, remoteName) := SplitReposName name true in
  let indexName := strings.ToLower indexName in
  if String.eqb indexName "docker.io"
  then indexName +:+ "/" +:+ strip_library remoteName
  else indexName +:+ "/" +:+ remoteName.

(** The part of [s] before the last [c], and the part after it. *)
Fixpoint cut_last (s : string) (c : ascii) : option (string * string) :=
  match s with
  | EmptyString => None
  | String a s' =>
      match cut_last s' c with
      | Some (l, r) => Some (String a l, r)
      | None => if Ascii.eqb a c then Some (EmptyString, s') else None
      end
  end.

(** Modelled from the spec: [parsers.ParseRepositoryTag] is not under
    src/.  A name holding [@] is cut there into repository and digest;
    otherwise it is cut at its last [:], unless what follows that colon
    holds a [/] (the colon then belongs to a registry port). *)
Definition ParseRepositoryTag (repos : string) : string * string :=
  if strings.Contains repos "@" then
    let parts := strings.Split repos "@" in
    (nth 0 parts EmptyString, nth 1 parts EmptyString)
  else
    match cut_last repos ":" with
    | Some (name, tag) =>
        if strings.Contains tag "/" then (repos, EmptyString) else (name, tag)
    | None => (repos, EmptyString)
    end.

(** Modelled from the spec: [utils.ImageReference] is not under src/.
    A tag is written [repo:tag]; a digest, which holds a colon itself,
    is written [repo@digest]. *)
Definition ImageReference (repo ref : string) : string :=
  if strings.Contains ref ":" then repo +:+ "@" +:+ ref
  else repo +:+ ":" +:+ ref.

(** The images of the graph of the examples. *)
Definition images : list string :=
  ["aaaaaaaaaaaa0001"; "bbbbbbbbbbbb0002"; "cccccccccccc0003"].

(** Modelled from the spec: [Graph.Get] is not under src/.  It finds
    the image whose ID the name is, in full or as a prefix, and fails
    when there is none. *)
Definition graph_Get (name : string) : option Image * option error :=
  match List.find (λ id, String.prefix name id) images with
  | Some id => (Some {| ID := id |}, None)
  | None => (None, Some (ErrExternal ("could not find image: " +:+ name)))
  end.

(** One possible iteration order: that of [map_to_list]. *)
Definition env : Env :=
  Build_Env NormalizeLocalName SplitReposName RepositoryNameHasIndex
    RegistryList ParseRepositoryTag ImageReference graph_Get
    map_to_list map_to_list.

(** Another possible iteration order: the reverse one. *)
Definition env_rev : Env :=
  Build_Env NormalizeLocalName SplitReposName RepositoryNameHasIndex
    RegistryList ParseRepositoryTag ImageReference graph_Get
    (λ m, rev (map_to_list m)) (λ m, rev (map_to_list m)).

End demo.

(** ** What [save] does to the file system

    [reload] and [save] above see the file through its decoded content.
    The view below is the one of another process: the system calls that
    [ioutil.WriteFile(store.path, jsonData, 0600)] issues, and the bytes
    a reader finds at the path between two of them. *)

Module fsys.

(** A file: permission bits and bytes. *)
Record inode : Type := { perm : N; data : string }.

Inductive syscall : Type :=
(** [open(path, O_WRONLY|O_CREAT|O_TRUNC, perm)] *)
| SysOpenTrunc (path : string) (p : N)
(** [write] on the file opened at [path] *)
| SysWrite (path : string) (bytes : string)
| SysClose (path : string)
| SysRename (oldpath newpath : string).

(** The effect of one call.  The permission bits of [open] count only
    when the file is created (the umask is taken to be 0). *)
Definition exec (c : syscall) (fs : gmap string inode) : gmap string inode :=
  match c with
  | SysOpenTrunc path p =>
      match fs !! path with
      | Some f => <[path := {| perm := perm f; data := EmptyString |}]> fs
      | None => <[path := {| perm := p; data := EmptyString |}]> fs
      end
  | SysWrite path bytes =>
      match fs !! path with
      | Some f => <[path := {| perm := perm f; data := data f +:+ bytes |}]> fs
      | None => fs
      end
  | SysClose _ => fs
  | SysRename oldpath newpath =>
      match fs !! oldpath with
      | Some f => <[newpath := f]> (delete oldpath fs)
      | None => fs
      end
  end.

Definition run (prog : list syscall) (fs : gmap string inode) : gmap string inode :=
  foldl (λ fs c, exec c fs) fs prog.




End fsys.




Module json.

Definition quote : string := String (ascii_of_nat 34) EmptyString.

(** A JSON string literal; the quote and the backslash are escaped.
    The keys and values of the examples hold no other character that
    JSON escapes. *)
Fixpoint escape (s : string) : string :=
  match s with
  | EmptyString => EmptyString
  | String a s' =>
      if Ascii.eqb a (ascii_of_nat 34) || Ascii.eqb a (ascii_of_nat 92)
      then String (ascii_of_nat 92) (String a (escape s'))
      else String a (escape s')
  end.

Definition literal (s : string) : string := quote +:+ escape s +:+ quote.

Fixpoint join (l : list string) : string :=
  match l with
  | [] => EmptyString
  | [x] => x
  | x :: rest => x +:+ "," +:+ join rest
  end.

(** A JSON object; Go writes the keys of a map in sorted order. *)
Definition object {V} (enc : V → string) (m : gmap string V) : string :=
  "{" +:+ join (omap (λ k, (λ v, literal k +:+ ":" +:+ enc v) <$> m !! k)
                  (sort_Strings (fst <$> map_to_list m)))
  +:+ "}".

(** [json.Marshal(store)]: the one exported field of [TagStore]. *)
Definition Marshal (st : TagStore) : string :=
  "{" +:+ literal "Repositories" +:+ ":"
  +:+ object (object literal) (Repositories st) +:+ "}".

End json.

(** ** Vocabulary of the properties *)

(** The tag [SetLoad] works with: [latest] when none is given. *)
Definition effective_tag (tag : string) : string :=
  if String.eqb tag EmptyString then DEFAULTTAG else tag.

(** The ID that reference [key] of repository [name] is bound to. *)
Definition bound (rs : RepoMap) (name key : string) : option string :=
  rs !! name ≫= (λ r : gmap string string, r !! key).

(** The store in memory holds what the file holds. *)
Definition in_sync (w : World) : Prop := file w = FileDoc (repos w).


Module demo_worlds.

Definition id_a : string := "aaaaaaaaaaaa0001".
Definition id_b : string := "bbbbbbbbbbbb0002".

(** A new store over an empty document. *)
Definition w0 : World := new_world (FileDoc ∅) [].

(** [busybox:v1] bound to image a, in memory and in the file. *)
Definition w_v1 : World :=
  let rs : RepoMap := {[ "docker.io/busybox" := {[ "v1" := id_a ]} ]} in
  set_file (FileDoc rs) [] (set_Repositories rs w0).

Definition dgst : string := "sha256:0123abcd".

(** [busybox@sha256:0123abcd] bound to image a. *)
Definition w_dgst : World :=
  let rs : RepoMap := {[ "docker.io/busybox" := {[ dgst := id_a ]} ]} in
  set_file (FileDoc rs) [] (set_Repositories rs w0).



(** The file binds [busybox:latest] to image a; the store in memory,
    loaded earlier, does not know of it. *)
Definition w_stale : World :=
  set_file (FileDoc {[ "docker.io/busybox" := {[ "latest" := id_a ]} ]}) [] w0.

End demo_worlds.


Module demo_stores.



End demo_stores.

Module demo_delete.

Import demo_worlds.

(** Image a is tagged in a repository whose name holds a colon; the
    text before that colon names another repository, which has a tag
    equal to the text after it. *)
Definition rs_clash : RepoMap :=
  {[ "host" := {[ "5000" := id_b ]};
     "host:5000" := {[ "latest" := id_a ]} ]}.

Definition w_clash : World :=
  set_file (FileDoc rs_clash) [] (set_Repositories rs_clash w0).

(** Image a is tagged in a repository of a registry with a port. *)
Definition rs_port : RepoMap :=
  {[ "localhost:5000/foo" := {[ "latest" := id_a ]} ]}.

Definition w_port : World :=
  set_file (FileDoc rs_port) [] (set_Repositories rs_port w0).

End demo_delete.

(** The pool of a kind, the other kind, and the error that names the
    pool in which a key was found. *)
Definition pool (kind : string) (w : World) : gmap string chan :=
  if String.eqb kind "pull" then pullingPool (store w) else pushingPool (store w).

Definition other_kind (kind : string) : string :=
  if String.eqb kind "pull" then "push" else "pull".

Definition in_progress (kind key : string) : error :=
  if String.eqb kind "pull" then ErrPullInProgress key else ErrPushInProgress key.

(** A channel is held under [key] by one of the pools. *)
Definition holds (w : World) (key : string) (c : chan) : Prop :=
  pullingPool (store w) !! key = Some c ∨ pushingPool (store w) !! key = Some c.

(** The invariant of the pools: no key is in both, every channel held
    is allocated and open, and no channel is held twice. *)
Definition pools_ok (w : World) : Prop :=
  (∀ key, pullingPool (store w) !! key = None ∨ pushingPool (store w) !! key = None)
  ∧ (∀ key c, holds w key c → chans w !! c = Some false)
  ∧ (∀ k1 k2 c, holds w k1 c → holds w k2 c → k1 = k2).

Module demo_pools.

(** A store in which a pull of [busybox:latest] is in progress. *)
Definition w_pulling : World :=
  snd (poolAdd "pull" "busybox:latest" demo_worlds.w0).

End demo_pools.

Module demo_fs.

Definition path : string := "/var/lib/docker/repositories-devicemapper".




End demo_fs.

(** What the specification says of names, in its own words.  A tag name
    has one to 128 characters, the first a letter, digit or underscore,
    the others of [[\w.-]]. *)
Definition tag_shape (name : string) : bool :=
  match list_ascii_of_string name with
  | [] => false
  | c :: rest =>
      word c && (List.length rest <=? 127)%nat && forallb word_dot_dash rest
  end.

(** A digest is, as a whole, one or more characters of
    [[A-Za-z0-9\-_+.]], a colon, and one or more hexadecimal digits. *)
Definition digest_shape (dgst : string) : bool :=
  MatchString (Cat BeginText (Cat validDigest EndText)) dgst.

Module demo_digest.

(** A string that holds a digest but is not one. *)
Definition not_a_digest : string := "../sha256:abc!zz".

End demo_digest.

(** A matcher state with nothing left of the text. *)
Definition at_end (st : regexp.state) : bool :=
  match snd st with [] => true | _ => false end.

(** ** The other functions of tags.go *)

Section MoreStore.
Context (env : Env).

(** [Repository.Update]: every entry of [u] is stored into [r], in the
    order of the iteration. *)
Definition Update (r u : gmap string string) : gmap string string :=
  foldl (λ r e, <[fst e := snd e]> r) r (range_refs env u).

(** [Repository.Contains]: the loop returns false at the first entry of
    [u] that [r] lacks or holds with another value. *)
Definition Contains (r u : gmap string string) : bool :=
  forallb
    (λ e, match r !! fst e with
          | Some rv => String.eqb rv (snd e)
          | None => false
          end)
    (range_refs env u).

(** [NewTagStore], after [filepath.Abs] (whose error, if any, is
    [abs_err]).  [IsNotExist] is [os.IsNotExist].  With an error no store
    is returned; the world is returned still, for the file. *)
Definition NewTagStore (IsNotExist : error → bool) (abs_err : option error)
    (f : FileState) (ws : list WriteOutcome) : option error * World :=
  match abs_err with
  | Some err => (Some err, new_world f ws)
  | None =>
      match reload (new_world f ws) with
      | (Some err, w) =>
          if IsNotExist err then
            match save w with
            | (Some err', w') => (Some err', w')
            | (None, w') => (None, w')
            end
          else (Some err, w)
      | (None, w) => (None, w)
      end
  end.

(** [ImageName]; [TruncateID] is [stringid.TruncateID]. *)
Definition ImageName (TruncateID : string → string) (id : string) (w : World)
  : string :=
  match ByID env w !! id with
  | Some (name :: _) => name
  | _ => TruncateID id
  end.

(** [GetRepoRefs]: the references of every image, under its truncated
    ID, in the order of the iteration. *)
Definition GetRepoRefs (TruncateID : string → string) (w : World)
  : gmap string (list string) :=
  foldl
    (λ reporefs '(name, repository),
       foldl
         (λ reporefs '(tag, id),
            let shortID := TruncateID id in
            <[shortID := (default [] (reporefs !! shortID)
                          ++ [ImageReference env name tag])%list]> reporefs)
         reporefs (range_refs env repository))
    ∅ (range_repos env (repos w)).

End MoreStore.

(** Every reference of the store with the image it is bound to, as
    [(id, name)], repository by repository in the order of [map_to_list]. *)
Definition references (imageReference : string → string → string) (rs : RepoMap)
  : list (string * string) :=
  flat_map
    (λ e, (λ b, (snd b, imageReference (fst e) (fst b))) <$> map_to_list (snd e))
    (map_to_list rs).

(** The names among them that are bound to [id]. *)
Definition names_of (imageReference : string → string → string) (rs : RepoMap)
    (id : string) : list string :=
  snd <$> filter (λ p, fst p = id) (references imageReference rs).

(** The references in the order in which the loops of [ByID] and
    [GetRepoRefs] visit them. *)
Definition visited (env : Env) (rs : RepoMap) : list (string * string) :=
  flat_map
    (λ e, (λ b, (snd b, ImageReference env (fst e) (fst b))) <$> range_refs env (snd e))
    (range_repos env rs).

(** What the loop of [ByID] makes of the entry of one ID when it meets
    the names [ns] one after the other. *)
Definition add_names (o : option (list string)) (ns : list string)
  : option (list string) :=
  foldl
    (λ o n, match o with
            | None => Some [n]
            | Some names => Some (sort_Strings (names ++ [n])%list)
            end)
    o ns.

Module demo_short.

(** [busybox:v1] bound to an ID of fewer than 12 bytes. *)
Definition w_short : World :=
  let rs : RepoMap := {[ "docker.io/busybox" := {[ "v1" := "abc" ]} ]} in
  set_file (FileDoc rs) [] (set_Repositories rs demo_worlds.w0).

End demo_short.

Module demo_memory.

(** The store in memory holds a repository; the file, rewritten by
    another process, is an empty document. *)
Definition w_mem_only : World :=
  set_Repositories {[ "docker.io/alpine" := {[ "latest" := demo_worlds.id_b ]} ]}
    demo_worlds.w0.

End demo_memory.

(** A store without digests and registry ports: no repository name
    holds a colon, and every key is a tag that [ValidateTagName]
    accepts. *)
Definition tags_only (rs : RepoMap) : Prop :=
  ∀ repo r, rs !! repo = Some r →
    strings.Contains repo ":" = false
    ∧ ∀ key v, r !! key = Some v → ValidateTagName key = None.

Module demo_tags.

(** Two repositories of tags; image a has two references. *)
Definition rs_tags : RepoMap :=
  {[ "docker.io/busybox" := {[ "v1" := demo_worlds.id_a; "latest" := demo_worlds.id_b ]};
     "docker.io/alpine" := {[ "latest" := demo_worlds.id_a ]} ]}.

Definition w_tags : World :=
  set_file (FileDoc rs_tags) [] (set_Repositories rs_tags demo_worlds.w0).

End demo_tags.

(** * Properties *)

(** ** The definitions on small inputs *)

Example ValidateTagName_latest : ValidateTagName "latest" = None.
Proof. reflexivity. Qed.

Example ValidateTagName_slash :
  ValidateTagName "a/b" = Some (ErrIllegalTagName "a/b").
Proof. reflexivity. Qed.

Example validateDigest_sha : validateDigest "sha256:abcdef01" = None.
Proof. reflexivity. Qed.

Example validateDigest_no_hex :
  validateDigest "sha256:xyz" = Some (ErrIllegalDigest "sha256:xyz").
Proof. reflexivity. Qed.

Example Split_colons :
  strings.Split "localhost:5000/foo:latest" ":" = ["localhost"; "5000/foo"; "latest"].
Proof. reflexivity. Qed.

Example sort_Strings_names :
  sort_Strings ["base:v1"; "base:latest"; "abc:v2"] = ["abc:v2"; "base:latest"; "base:v1"].
Proof. vm_compute. reflexivity. Qed.

Example NormalizeLocalName_busybox :
  demo.NormalizeLocalName "busybox" = "docker.io/busybox".
Proof. reflexivity. Qed.

Example NormalizeLocalName_library :
  demo.NormalizeLocalName "library/hello-world" = "docker.io/hello-world".
Proof. reflexivity. Qed.

Example NormalizeLocalName_private :
  demo.NormalizeLocalName "LocalHost:5000/team/img" = "localhost:5000/team/img".
Proof. reflexivity. Qed.

Example ParseRepositoryTag_port :
  demo.ParseRepositoryTag "localhost:5000/foo" = ("localhost:5000/foo", EmptyString)
  ∧ demo.ParseRepositoryTag "localhost:5000/foo:v1" = ("localhost:5000/foo", "v1")
  ∧ demo.ParseRepositoryTag "foo@sha256:ab" = ("foo", "sha256:ab").
Proof. repeat split; reflexivity. Qed.

(** [Tag] in a new store: the binding goes to memory and to the file. *)
Example Tag_new_store :
  Tag demo.env "busybox" "v1" demo_worlds.id_a false false demo_worlds.w0
  = (Return None, demo_worlds.w_v1).
Proof. vm_compute. reflexivity. Qed.

(** With force the binding is replaced. *)
Example Tag_force_replaces :
  bound (repos (snd (Tag demo.env "busybox" "v1" demo_worlds.id_b true false
                       demo_worlds.w_v1)))
    "docker.io/busybox" "v1" = Some demo_worlds.id_b.
Proof. vm_compute. reflexivity. Qed.

(** [Delete] of the last reference removes the repository. *)
Example Delete_last_reference :
  Delete demo.env "busybox" "v1" demo_worlds.w_v1
  = ((true, None), demo_worlds.w0).
Proof. vm_compute. reflexivity. Qed.

Example Delete_unknown :
  fst (Delete demo.env "busybox" "v2" demo_worlds.w_v1)
  = (false, Some (ErrNoSuchReference "busybox" "v2"))
  ∧ fst (Delete demo.env "alpine" "v1" demo_worlds.w_v1)
    = (false, Some (ErrNoSuchRepository "alpine")).
Proof. split; vm_compute; reflexivity. Qed.

(** The marshalled store of [demo_worlds.w_v1]. *)
Example Marshal_v1 :
  json.Marshal (store demo_worlds.w_v1)
  = "{" +:+ json.quote +:+ "Repositories" +:+ json.quote +:+ ":{"
    +:+ json.quote +:+ "docker.io/busybox" +:+ json.quote +:+ ":{"
    +:+ json.quote +:+ "v1" +:+ json.quote +:+ ":"
    +:+ json.quote +:+ "aaaaaaaaaaaa0001" +:+ json.quote +:+ "}}}".
Proof. vm_compute. reflexivity. Qed.

(** ** Conflicts of [Tag] and [SetDigest] *)

Section Conflicts.
Context (env : Env).

Lemma reload_in_sync w : in_sync w → reload w = (None, w).
Proof.
  unfold in_sync, reload. intros ->.
  unfold set_Repositories. rewrite (map_union_idemp (repos w)).
  destruct w as [[rs pl ps] f ws hp]; reflexivity.
Qed.

Lemma reload_keeps_file w e w1 : reload w = (e, w1) → file w1 = file w ∧ writes w1 = writes w.
Proof.
  unfold reload. destruct (file w) eqn:Hf; intros [= <- <-]; auto.
Qed.

Lemma is_Conflict_tag t old : is_Conflict (ErrConflictTag t old) = true.
Proof. reflexivity. Qed.


(** Without force, an existing binding of the tag stops [SetLoad]
    right after the reload, whatever image was looked up. *)
Lemma SetLoad_existing_no_force R T X keep out w w1 img r old :
  LookupImage env X w = (img, None) →
  validateRepoName R = None →
  ValidateTagName (effective_tag T) = None →
  reload w = (None, w1) →
  repos w1 !! stored_name env R keep = Some r →
  r !! effective_tag T = Some old →
  SetLoad env R T X false keep out w
  = (Return (Some (ErrConflictTag (effective_tag T) old)), out, w1).
Proof.
  intros HL HR HT Hre Hr Hold. unfold SetLoad.
  rewrite HL, HR. fold (effective_tag T). rewrite HT, Hre. cbn zeta.
  rewrite Hr, Hold. reflexivity.
Qed.


(** C10. The same holds when the image looked up is the one the tag
    is bound to already: without force, [Tag] fails with a Conflict
    although no binding would change. *)
Theorem Tag_same_image_needs_force R T X keep w w1 img r A :
  LookupImage env X w = (Some img, None) → ID img = A →
  validateRepoName R = None →
  ValidateTagName (effective_tag T) = None →
  reload w = (None, w1) →
  repos w1 !! stored_name env R keep = Some r →
  r !! effective_tag T = Some A →
  Tag env R T X false keep w
  = (Return (Some (ErrConflictTag (effective_tag T) A)), w1)
  ∧ is_Conflict (ErrConflictTag (effective_tag T) A) = true.
Proof.
  intros HL _ HR HT Hre Hr HA. split.
  - unfold Tag.
    rewrite (SetLoad_existing_no_force R T X keep None w w1 (Some img) r A); auto.
  - apply is_Conflict_tag.
Qed.

End Conflicts.


Lemma Tag_same_image_needs_force_witness :
  Tag demo.env "busybox" "v1" demo_worlds.id_a false false demo_worlds.w_v1
  = (Return (Some (ErrConflictTag "v1" demo_worlds.id_a)), demo_worlds.w_v1).
Proof.
  refine (proj1 (Tag_same_image_needs_force demo.env "busybox" "v1"
                   demo_worlds.id_a false demo_worlds.w_v1 demo_worlds.w_v1
                   {| ID := demo_worlds.id_a |} {[ "v1" := demo_worlds.id_a ]}
                   demo_worlds.id_a _ _ _ _ _ _ _));
    vm_compute; reflexivity.
Defined.

Section DigestConflicts.
Context (env : Env).



End DigestConflicts.


(** ** Candidate enumeration *)

Section Candidates.

Lemma lookup_entry_elem rs name n r :
  (n, r) ∈ lookup_entry rs name → rs !! n = Some r.
Proof.
  unfold lookup_entry. destruct (rs !! name) eqn:E.
  - intros H. apply list_elem_of_singleton in H. congruence.
  - intros H. apply not_elem_of_nil in H. contradiction.
Qed.

Lemma additional_matches_elem env rs repoName n r :
  (n, r) ∈ additional_matches env rs repoName → rs !! n = Some r.
Proof.
  unfold additional_matches. intros H.
  apply list_elem_of_In, in_flat_map in H. destruct H as [reg [_ H]].
  apply list_elem_of_In in H. eapply lookup_entry_elem; eauto.
Qed.

Lemma other_matches_elem env rs repoName n r :
  range_ok env →
  (n, r) ∈ other_matches env rs repoName
  ↔ rs !! n = Some r ∧ is_other_match env repoName n = true.
Proof.
  intros [Hperm _]. unfold other_matches.
  rewrite list_elem_of_filter, (Hperm rs), elem_of_map_to_list. cbn. tauto.
Qed.






End Candidates.

Lemma demo_range_ok : range_ok demo.env ∧ range_ok demo.env_rev.
Proof.
  split; split; intros m; cbn; try reflexivity; symmetry; apply Permutation_rev.
Qed.




(** ** [DeleteAll] and names that hold a colon *)

(** The store of [demo_delete.w_clash] is the one that two calls of
    [Tag] build in a new store. *)
Example w_clash_by_Tag :
  snd (Tag demo.env "host:5000" "latest" demo_worlds.id_a false true
         (snd (Tag demo.env "host" "5000" demo_worlds.id_b false true demo_worlds.w0)))
  = demo_delete.w_clash.
Proof. vm_compute. reflexivity. Qed.

(** C4 fails on the code.  [DeleteAll] cuts the name [host:5000:latest]
    at its first colon and deletes tag [5000] of repository [host]: it
    returns no error, and image a is still bound to [host:5000:latest].
    For a registry with a port it looks for a repository [localhost],
    returns an error and deletes nothing. *)
Theorem DeleteAll_cuts_at_first_colon :
  ByID demo.env demo_delete.w_clash !! demo_worlds.id_a = Some ["host:5000:latest"]
  ∧ fst (DeleteAll demo.env demo_worlds.id_a demo_delete.w_clash) = None
  ∧ bound (repos (snd (DeleteAll demo.env demo_worlds.id_a demo_delete.w_clash)))
      "host:5000" "latest" = Some demo_worlds.id_a
  ∧ repos (snd (DeleteAll demo.env demo_worlds.id_a demo_delete.w_clash)) !! "host" = None
  ∧ DeleteAll demo.env demo_worlds.id_a demo_delete.w_port
    = (Some (ErrNoSuchRepository "localhost"), demo_delete.w_port).
Proof. repeat split; vm_compute; reflexivity. Qed.

(** ** A save that fails *)

Section FailedSave.
Context (env : Env).









End FailedSave.



(** ** Which reads reload *)

Section Reads.
Context (env : Env).

Lemma reload_doc w d :
  file w = FileDoc d → reload w = (None, set_Repositories (d ∪ repos w) w).
Proof. unfold reload. intros ->. reflexivity. Qed.

Lemma getRepositoryList_exact rs n r :
  rs !! n = Some r →
  ∃ rest, getRepositoryList env rs n = (n, r) :: rest.
Proof.
  intros H. unfold getRepositoryList, lookup_entry at 1. rewrite H.
  eexists. reflexivity.
Qed.

(** C6, as the code has it.  [Get] reloads: it answers from the store
    in which every repository of the file has replaced the one of that
    name in memory, so a repository that the file holds under the very
    name asked for is the answer; when the file cannot be read or
    decoded it returns that error.  [GetImage] and [ByID] do not reload:
    their answers are those of the store in memory, whatever the file
    holds. *)
Theorem Get_reloads_GetImage_ByID_do_not n ref w :
  (∀ f ws, GetImage env n ref (set_file f ws w) = GetImage env n ref w)
  ∧ (∀ f ws, ByID env (set_file f ws w) = ByID env w)
  ∧ (∀ d, file w = FileDoc d →
          Get env n w
          = (match getRepositoryList env (d ∪ repos w) n with
             | (_, repoRefs) :: _ => (Some repoRefs, None)
             | [] => (None, None)
             end, set_Repositories (d ∪ repos w) w))
  ∧ (∀ d r, file w = FileDoc d → d !! n = Some r →
            fst (Get env n w) = (Some r, None))
  ∧ (∀ e, file w = FileUnreadable e ∨ file w = FileCorrupt e →
          Get env n w = ((None, Some e), w)).
Proof.
  split; [reflexivity |]. split; [reflexivity |]. split; [| split].
  - intros d Hf. unfold Get. rewrite (reload_doc w d Hf).
    change (repos (set_Repositories (d ∪ repos w) w)) with (d ∪ repos w).
    destruct (getRepositoryList env (d ∪ repos w) n) as [| [name repoRefs] rest];
      reflexivity.
  - intros d r Hf Hd. unfold Get. rewrite (reload_doc w d Hf).
    change (repos (set_Repositories (d ∪ repos w) w)) with (d ∪ repos w).
    assert (Hu : (d ∪ repos w) !! n = Some r) by (apply lookup_union_Some_l; exact Hd).
    destruct (getRepositoryList_exact (d ∪ repos w) n r Hu) as [rest ->].
    reflexivity.
  - intros e [Hf | Hf]; unfold Get, reload; rewrite Hf; reflexivity.
Qed.

End Reads.

Lemma Get_reloads_GetImage_ByID_do_not_witness :
  fst (Get demo.env "docker.io/busybox" demo_worlds.w_stale)
  = (Some {[ "latest" := demo_worlds.id_a ]}, None).
Proof.
  refine (proj1 (proj2 (proj2 (proj2
            (Get_reloads_GetImage_ByID_do_not demo.env "docker.io/busybox" "latest"
               demo_worlds.w_stale))))
            {[ "docker.io/busybox" := {[ "latest" := demo_worlds.id_a ]} ]}
            {[ "latest" := demo_worlds.id_a ]} _ _);
    vm_compute; reflexivity.
Defined.

(** C6 as stated fails for [GetImage] and [ByID]: the file binds
    [busybox:latest] to image a (written by another process), the store
    in memory is empty.  [GetImage] finds nothing and [ByID] is empty;
    on the reloaded store [GetImage] finds the image. *)
Lemma GetImage_ByID_miss_the_file :
  file demo_worlds.w_stale
  = FileDoc {[ "docker.io/busybox" := {[ "latest" := demo_worlds.id_a ]} ]}
  ∧ GetImage demo.env "busybox" "latest" demo_worlds.w_stale = (None, None)
  ∧ ByID demo.env demo_worlds.w_stale = ∅
  ∧ GetImage demo.env "busybox" "latest" (snd (reload demo_worlds.w_stale))
    = (Some {| ID := demo_worlds.id_a |}, None)
  ∧ ByID demo.env (snd (reload demo_worlds.w_stale))
    = {[ demo_worlds.id_a := ["docker.io/busybox:latest"] ]}.
Proof. repeat split; vm_compute; reflexivity. Qed.

(** ** The pools *)

Section Pools.

Lemma pools_ok_empty w :
  pullingPool (store w) = ∅ → pushingPool (store w) = ∅ → pools_ok w.
Proof.
  intros Hpl Hps. unfold pools_ok, holds. rewrite Hpl, Hps.
  repeat split.
  - intros key. left. apply lookup_empty.
  - intros key c [H | H]; rewrite lookup_empty in H; discriminate H.
  - intros k1 k2 c [H | H]; rewrite lookup_empty in H; discriminate H.
Qed.

Lemma lookup_fresh_chan (hp : list bool) :
  (hp ++ [false])%list !! List.length hp = Some false.
Proof.
  rewrite lookup_app_r by reflexivity. rewrite Nat.sub_diag. reflexivity.
Qed.

Lemma lookup_old_chan (hp : list bool) c b :
  hp !! c = Some b → (hp ++ [false])%list !! c = Some b.
Proof. intros H. rewrite lookup_app_l; [exact H |]. eapply lookup_lt_Some; eauto. Qed.

Lemma held_not_fresh w key c :
  pools_ok w → holds w key c → c ≠ List.length (chans w).
Proof.
  intros (_ & Hopen & _) Hh Heq. apply Hopen in Hh.
  apply lookup_lt_Some in Hh. lia.
Qed.

Lemma poolAdd_ok kind key w r w' :
  pools_ok w → poolAdd kind key w = (r, w') → pools_ok w'.
Proof.
  intros Hok. pose proof Hok as (Hdis & Hopen & Hinj). unfold poolAdd.
  destruct (pullingPool (store w) !! key) as [c |] eqn:Hpl; [intros [= <- <-]; exact Hok |].
  destruct (pushingPool (store w) !! key) as [c |] eqn:Hps; [intros [= <- <-]; exact Hok |].
  assert (Hfresh : ∀ k c, holds w k c → c ≠ List.length (chans w))
    by (intros k c; apply held_not_fresh; exact Hok).
  destruct (String.eqb kind "pull"); [| destruct (String.eqb kind "push")];
    intros [= <- <-]; unfold pools_ok, holds; cbn.
  - split; [| split].
    + intros k. destruct (decide (key = k)) as [<- | Hne]; [right; exact Hps |].
      rewrite lookup_insert_ne by exact Hne. apply Hdis.
    + intros k c. destruct (decide (key = k)) as [<- | Hne].
      * rewrite lookup_insert_eq, Hps. intros [[= <-] | [=]]. apply lookup_fresh_chan.
      * rewrite lookup_insert_ne by exact Hne. intros H.
        apply lookup_old_chan, (Hopen k c H).
    + intros k1 k2 c.
      destruct (decide (key = k1)) as [<- | Hne1];
        destruct (decide (key = k2)) as [<- | Hne2]; [reflexivity | | |].
      * rewrite lookup_insert_eq, (lookup_insert_ne _ _ _ _ Hne2), Hps.
        intros [[= <-] | [=]] H2. exfalso. exact (Hfresh k2 _ H2 eq_refl).
      * rewrite lookup_insert_eq, (lookup_insert_ne _ _ _ _ Hne1), Hps.
        intros H1 [[= <-] | [=]]. exfalso. exact (Hfresh k1 _ H1 eq_refl).
      * rewrite !lookup_insert_ne by assumption. apply Hinj.
  - split; [| split].
    + intros k. destruct (decide (key = k)) as [<- | Hne]; [left; exact Hpl |].
      rewrite lookup_insert_ne by exact Hne. apply Hdis.
    + intros k c. destruct (decide (key = k)) as [<- | Hne].
      * rewrite lookup_insert_eq, Hpl. intros [[=] | [= <-]]. apply lookup_fresh_chan.
      * rewrite lookup_insert_ne by exact Hne. intros H.
        apply lookup_old_chan, (Hopen k c H).
    + intros k1 k2 c.
      destruct (decide (key = k1)) as [<- | Hne1];
        destruct (decide (key = k2)) as [<- | Hne2]; [reflexivity | | |].
      * rewrite lookup_insert_eq, (lookup_insert_ne _ _ _ _ Hne2), Hpl.
        intros [[=] | [= <-]] H2. exfalso. exact (Hfresh k2 _ H2 eq_refl).
      * rewrite lookup_insert_eq, (lookup_insert_ne _ _ _ _ Hne1), Hpl.
        intros H1 [[=] | [= <-]]. exfalso. exact (Hfresh k1 _ H1 eq_refl).
      * rewrite !lookup_insert_ne by assumption. apply Hinj.
  - split; [exact Hdis | split; [| exact Hinj]].
    intros k c H. apply lookup_old_chan, (Hopen k c H).
Qed.

Lemma close_open (hp : list bool) c :
  hp !! c = Some false → close c hp = Return (<[c := true]> hp).
Proof. unfold close. intros ->. reflexivity. Qed.

Lemma poolRemove_ok kind key w e w' :
  pools_ok w → poolRemove kind key w = (Return e, w') → pools_ok w'.
Proof.
  intros Hok. pose proof Hok as (Hdis & Hopen & Hinj). unfold poolRemove.
  destruct (String.eqb kind "pull"); [| destruct (String.eqb kind "push")].
  - destruct (pullingPool (store w) !! key) as [c |] eqn:Hpl;
      [| intros [= <- <-]; exact Hok].
    rewrite (close_open _ c) by (apply (Hopen key); left; exact Hpl).
    intros [= <- <-]. unfold pools_ok, holds; cbn.
    assert (Hsub : ∀ k c', delete key (pullingPool (store w)) !! k = Some c'
                           ∨ pushingPool (store w) !! k = Some c' →
                           holds w k c' ∧ c' ≠ c).
    { intros k c' [H | H].
      - apply lookup_delete_Some in H as [Hne H]. split; [left; exact H |].
        intros ->. apply Hne. apply (Hinj key k c); left; assumption.
      - split; [right; exact H |]. intros ->.
        assert (key = k) by (apply (Hinj key k c); [left | right]; assumption).
        subst k. destruct (Hdis key) as [D | D]; congruence. }
    split; [| split].
    + intros k. destruct (Hdis k) as [D | D]; [left | right; exact D].
      apply lookup_delete_None. right. exact D.
    + intros k c' H. destruct (Hsub k c' H) as [Hh Hne].
      rewrite list_lookup_insert_ne by congruence. apply (Hopen k c' Hh).
    + intros k1 k2 c' H1 H2.
      apply (Hinj k1 k2 c'); [apply (Hsub _ _ H1) | apply (Hsub _ _ H2)].
  - destruct (pushingPool (store w) !! key) as [c |] eqn:Hps;
      [| intros [= <- <-]; exact Hok].
    rewrite (close_open _ c) by (apply (Hopen key); right; exact Hps).
    intros [= <- <-]. unfold pools_ok, holds; cbn.
    assert (Hsub : ∀ k c', pullingPool (store w) !! k = Some c'
                           ∨ delete key (pushingPool (store w)) !! k = Some c' →
                           holds w k c' ∧ c' ≠ c).
    { intros k c' [H | H].
      - split; [left; exact H |]. intros ->.
        assert (key = k) by (apply (Hinj key k c); [right | left]; assumption).
        subst k. destruct (Hdis key) as [D | D]; congruence.
      - apply lookup_delete_Some in H as [Hne H]. split; [right; exact H |].
        intros ->. apply Hne. apply (Hinj key k c); right; assumption. }
    split; [| split].
    + intros k. destruct (Hdis k) as [D | D]; [left; exact D | right].
      apply lookup_delete_None. right. exact D.
    + intros k c' H. destruct (Hsub k c' H) as [Hh Hne].
      rewrite list_lookup_insert_ne by congruence. apply (Hopen k c' Hh).
    + intros k1 k2 c' H1 H2.
      apply (Hinj k1 k2 c'); [apply (Hsub _ _ H1) | apply (Hsub _ _ H2)].
  - intros [= <- <-]. exact Hok.
Qed.

Lemma pool_reachable_ok w : pool_reachable w → pools_ok w.
Proof.
  induction 1 as [w Hpl Hps _ | kind key w r w' _ IH Hadd
                 | kind key w e w' _ IH Hrem | w w' _ IH Hpl Hps Hch].
  - apply pools_ok_empty; assumption.
  - eapply poolAdd_ok; eauto.
  - eapply poolRemove_ok; eauto.
  - unfold pools_ok, holds in *. rewrite Hpl, Hps, Hch. exact IH.
Qed.

(** C7.  In every state of the pools that the store can reach, no key
    is in both pools.  For a kind that is pull or push: [poolAdd] on a
    key of the pool of that kind returns the channel that is there and
    an error, and changes nothing; on a key of the other pool it returns
    the error that the other operation is in progress, and changes
    nothing; on a key of neither pool it allocates a channel that is new
    and open, puts it into the pool of the kind and returns it without
    error.  [poolRemove] on a key of the pool of the kind closes its
    channel and deletes the entry. *)
Theorem pools_exclusive kind key w :
  pool_reachable w →
  kind = "pull" ∨ kind = "push" →
  (∀ k, pullingPool (store w) !! k = None ∨ pushingPool (store w) !! k = None)
  ∧ (∀ c, pool kind w !! key = Some c →
          poolAdd kind key w = ((Some c, Some (in_progress kind key)), w))
  ∧ (∀ c, pool (other_kind kind) w !! key = Some c →
          poolAdd kind key w = ((Some c, Some (in_progress (other_kind kind) key)), w))
  ∧ (pullingPool (store w) !! key = None → pushingPool (store w) !! key = None →
     ∃ w', poolAdd kind key w = ((Some (List.length (chans w)), None), w')
           ∧ pool kind w' = <[key := List.length (chans w)]> (pool kind w)
           ∧ pool (other_kind kind) w' = pool (other_kind kind) w
           ∧ chans w !! List.length (chans w) = None
           ∧ chans w' !! List.length (chans w) = Some false
           ∧ (∀ k c, holds w k c → c ≠ List.length (chans w))
           ∧ pools_ok w')
  ∧ (∀ c, pool kind w !! key = Some c →
          ∃ w', poolRemove kind key w = (Return None, w')
                ∧ chans w' !! c = Some true
                ∧ pool kind w' = delete key (pool kind w)
                ∧ pool (other_kind kind) w' = pool (other_kind kind) w
                ∧ pools_ok w').
Proof.
  intros Hreach Hkind. pose proof (pool_reachable_ok w Hreach) as Hok.
  pose proof Hok as (Hdis & Hopen & Hinj).
  split; [exact Hdis |].
  assert (Hfresh : ∀ k c, holds w k c → c ≠ List.length (chans w))
    by (intros k c; apply held_not_fresh; exact Hok).
  destruct Hkind as [-> | ->]; cbn [pool other_kind in_progress String.eqb Ascii.eqb Bool.eqb].
  - split; [| split; [| split]].
    + intros c Hc. unfold poolAdd. rewrite Hc. reflexivity.
    + intros c Hc. unfold poolAdd.
      destruct (Hdis key) as [D | D]; [| congruence]. rewrite D, Hc. reflexivity.
    + intros Hpl Hps.
      destruct (poolAdd "pull" key w) as [r w'] eqn:Hadd.
      pose proof (poolAdd_ok _ _ _ _ _ Hok Hadd) as Hok'.
      unfold poolAdd in Hadd. rewrite Hpl, Hps in Hadd. cbn in Hadd.
      injection Hadd as <- <-. eexists. split; [reflexivity |].
      cbn. split; [reflexivity |]. split; [reflexivity |].
      split; [apply lookup_ge_None; lia |].
      split; [apply lookup_fresh_chan |].
      split; [exact Hfresh | exact Hok'].
    + intros c Hc.
      assert (Hcl : chans w !! c = Some false) by (apply (Hopen key); left; exact Hc).
      destruct (poolRemove "pull" key w) as [r w'] eqn:Hrem.
      unfold poolRemove in Hrem. cbn in Hrem.
      rewrite Hc, (close_open _ c Hcl) in Hrem. injection Hrem as <- <-.
      eexists. split; [reflexivity |]. cbn.
      split; [apply list_lookup_insert_eq; eapply lookup_lt_Some; eauto |].
      split; [reflexivity |]. split; [reflexivity |].
      eapply (poolRemove_ok "pull" key w None). { exact Hok. }
      unfold poolRemove. cbn. rewrite Hc, (close_open _ c Hcl). reflexivity.
  - split; [| split; [| split]].
    + intros c Hc. unfold poolAdd.
      destruct (Hdis key) as [D | D]; [| congruence]. rewrite D, Hc. reflexivity.
    + intros c Hc. unfold poolAdd. rewrite Hc. reflexivity.
    + intros Hpl Hps.
      destruct (poolAdd "push" key w) as [r w'] eqn:Hadd.
      pose proof (poolAdd_ok _ _ _ _ _ Hok Hadd) as Hok'.
      unfold poolAdd in Hadd. rewrite Hpl, Hps in Hadd. cbn in Hadd.
      injection Hadd as <- <-. eexists. split; [reflexivity |].
      cbn. split; [reflexivity |]. split; [reflexivity |].
      split; [apply lookup_ge_None; lia |].
      split; [apply lookup_fresh_chan |].
      split; [exact Hfresh | exact Hok'].
    + intros c Hc.
      assert (Hcl : chans w !! c = Some false) by (apply (Hopen key); right; exact Hc).
      destruct (poolRemove "push" key w) as [r w'] eqn:Hrem.
      unfold poolRemove in Hrem. cbn in Hrem.
      rewrite Hc, (close_open _ c Hcl) in Hrem. injection Hrem as <- <-.
      eexists. split; [reflexivity |]. cbn.
      split; [apply list_lookup_insert_eq; eapply lookup_lt_Some; eauto |].
      split; [reflexivity |]. split; [reflexivity |].
      eapply (poolRemove_ok "push" key w None). { exact Hok. }
      unfold poolRemove. cbn. rewrite Hc, (close_open _ c Hcl). reflexivity.
Qed.

End Pools.

Lemma demo_pulling_reachable : pool_reachable demo_pools.w_pulling.
Proof.
  apply (reach_add "pull" "busybox:latest" demo_worlds.w0
           (fst (poolAdd "pull" "busybox:latest" demo_worlds.w0))).
  - apply reach_new; reflexivity.
  - reflexivity.
Qed.

Lemma pools_exclusive_witness :
  poolAdd "push" "busybox:latest" demo_pools.w_pulling
  = ((Some 0, Some (ErrPullInProgress "busybox:latest")), demo_pools.w_pulling)
  ∧ poolAdd "pull" "busybox:latest" demo_pools.w_pulling
    = ((Some 0, Some (ErrPullInProgress "busybox:latest")), demo_pools.w_pulling)
  ∧ ∃ w', poolRemove "pull" "busybox:latest" demo_pools.w_pulling = (Return None, w')
          ∧ chans w' !! 0 = Some true.
Proof.
  destruct (pools_exclusive "push" "busybox:latest" demo_pools.w_pulling
              demo_pulling_reachable (or_intror eq_refl))
    as (_ & _ & Hother & _).
  destruct (pools_exclusive "pull" "busybox:latest" demo_pools.w_pulling
              demo_pulling_reachable (or_introl eq_refl))
    as (_ & Hsame & _ & _ & Hrem).
  split; [apply (Hother 0); vm_compute; reflexivity |].
  split; [apply (Hsame 0); vm_compute; reflexivity |].
  destruct (Hrem 0) as (w' & Hr & Hc & _); [vm_compute; reflexivity |].
  exists w'. split; [exact Hr | exact Hc].
Defined.

(** ** [save] and readers of the file *)

Section SaveInPlace.
Context (json_Marshal : TagStore → string).



End SaveInPlace.


(** ** Validation of names *)

Section Validation.

Lemma run_EndText_nonempty (sts : list regexp.state) :
  match flat_map (regexp.run EndText) sts with [] => false | _ :: _ => true end
  = existsb at_end sts.
Proof.
  induction sts as [| [b rest] sts IH]; [reflexivity |].
  cbn [flat_map existsb]. unfold at_end at 1. cbn [regexp.run snd].
  destruct rest; cbn; [reflexivity | exact IH].
Qed.

Lemma existsb_app_nil {A} (f : A → bool) (l : list A) :
  existsb f (l ++ [])%list = existsb f l.
Proof. rewrite app_nil_r. reflexivity. Qed.

(** Repeating a class at most [n] times reaches the end of the text
    when at most [n] characters are left and all are of the class. *)
Lemma upto_class_at_end p n b rest :
  existsb at_end (regexp.upto (regexp.run (Class p)) n (b, rest))
  = (List.length rest <=? n)%nat && forallb p rest.
Proof.
  revert b rest. induction n as [| n IH]; intros b rest.
  - destruct rest; reflexivity.
  - destruct rest as [| c rest]; [reflexivity |].
    cbn [regexp.upto existsb]. unfold at_end at 1. cbn [snd orb regexp.run].
    destruct (p c) eqn:Hp.
    + cbn [flat_map]. rewrite existsb_app_nil, IH.
      cbn [List.length forallb]. rewrite Hp. reflexivity.
    + cbn [flat_map existsb forallb List.length]. rewrite Hp.
      rewrite andb_false_r. reflexivity.
Qed.

Lemma existsb_seq_false (f : nat → bool) (start len : nat) :
  (∀ i : nat, (start ≤ i)%nat → f i = false) → existsb f (seq start len) = false.
Proof.
  revert start. induction len as [| len IH]; intros start H; [reflexivity |].
  cbn. rewrite (H start) by lia. apply IH. intros i Hi. apply H. lia.
Qed.

(** An anchored pattern can match at position 0 only. *)
Lemma MatchString_BeginText r s :
  MatchString (Cat BeginText r) s
  = match regexp.run r (true, list_ascii_of_string s) with
    | [] => false
    | _ :: _ => true
    end.
Proof.
  unfold MatchString. cbn [seq existsb].
  rewrite existsb_seq_false.
  - rewrite orb_false_r. unfold matches_at. cbn. rewrite app_nil_r. reflexivity.
  - intros i Hi. unfold matches_at. destruct i as [| i]; [lia |]. reflexivity.
Qed.

Lemma MatchString_validTagName s :
  MatchString validTagName s = tag_shape s.
Proof.
  unfold validTagName, tag_shape. rewrite MatchString_BeginText.
  destruct (list_ascii_of_string s) as [| c rest]; [reflexivity |].
  assert (Hrun :
    regexp.run (Cat (Class word)
                  (Cat (Repeat (Class word_dot_dash) 0 (Some 127)) EndText))
      (true, c :: rest)
    = if word c
      then flat_map (regexp.run EndText)
             (regexp.upto (regexp.run (Class word_dot_dash)) 127 (false, rest))
      else []).
  { cbn [regexp.run snd flat_map]. destruct (word c); [| reflexivity].
    cbn [flat_map regexp.exactly Nat.sub]. rewrite !app_nil_r. reflexivity. }
  rewrite Hrun. destruct (word c); [| reflexivity].
  rewrite run_EndText_nonempty, upto_class_at_end. reflexivity.
Qed.

Lemma tag_shape_nonempty s : tag_shape s = true → s ≠ EmptyString.
Proof. intros H ->. discriminate H. Qed.

(** [ValidateTagName] accepts the names of the shape the specification
    gives, and no other. *)
Lemma ValidateTagName_iff name :
  ValidateTagName name = None ↔ tag_shape name = true.
Proof.
  unfold ValidateTagName. rewrite MatchString_validTagName.
  destruct (String.eqb_spec name EmptyString) as [-> | Hne].
  - split; intros H; discriminate H.
  - destruct (tag_shape name); cbn; split; intros H; try reflexivity; discriminate H.
Qed.

(** [validateRepoName] rejects the empty name and [scratch], and no
    other name. *)
Lemma validateRepoName_iff name :
  validateRepoName name = None ↔ name ≠ EmptyString ∧ name ≠ "scratch".
Proof.
  unfold validateRepoName.
  destruct (String.eqb_spec name EmptyString) as [-> | Hne].
  - split; [intros H; discriminate H | intros [H _]; congruence].
  - destruct (String.eqb_spec name "scratch") as [-> | Hns].
    + split; [intros H; discriminate H | intros [_ H]; congruence].
    + split; [intros _; split; assumption | reflexivity].
Qed.

End Validation.

(** C9 fails on the code for digests.  The pattern of [validDigest] has
    no anchors, and [MatchString] looks for a match anywhere in the
    string: [validateDigest] accepts a string that holds a digest
    between other characters, and [SetDigest] binds it. *)
Theorem validateDigest_accepts_part_match :
  digest_shape demo_digest.not_a_digest = false
  ∧ validateDigest demo_digest.not_a_digest = None
  ∧ fst (SetDigest demo.env "busybox" demo_digest.not_a_digest demo_worlds.id_a
           false demo_worlds.w0) = Return None
  ∧ bound (repos (snd (SetDigest demo.env "busybox" demo_digest.not_a_digest
                         demo_worlds.id_a false demo_worlds.w0)))
      "docker.io/busybox" demo_digest.not_a_digest = Some demo_worlds.id_a
  ∧ digest_shape "sha256:abc" = true.
Proof. repeat split; vm_compute; reflexivity. Qed.

(** ** A successful [Tag], and the next one *)

Section TagTwice.
Context (env : Env).

Lemma save_success w w' :
  save w = (None, w') → in_sync w' ∧ store w' = store w.
Proof.
  unfold save, in_sync.
  destruct (writes w) as [| [| e f] rest]; intros [= <-]; split; reflexivity.
Qed.

Lemma bind_and_save_success normalized key repo img w w' :
  bind_and_save normalized key repo img w = (Return None, w') →
  ∃ i, img = Some i ∧ in_sync w'
       ∧ repos w' = <[normalized := <[key := ID i]> repo]> (repos w).
Proof.
  unfold bind_and_save. destruct img as [i |]; [| intros [=]].
  destruct (save _) as [e w2] eqn:Hs. intros [= -> <-].
  apply save_success in Hs as [Hsync Hst].
  exists i. split; [reflexivity |]. split; [exact Hsync |].
  unfold repos. rewrite Hst. reflexivity.
Qed.

Lemma bound_insert (rs : RepoMap) name key id (repo : gmap string string) :
  bound (<[name := <[key := id]> repo]> rs) name key = Some id.
Proof. unfold bound. rewrite lookup_insert_eq. cbn. apply lookup_insert_eq. Qed.

(** A [Tag] that returns without error has validated the names, leaves
    memory and file in agreement, and has bound the tag to the image
    that was looked up. *)
Lemma Tag_success R T X force keep w w' :
  Tag env R T X force keep w = (Return None, w') →
  ∃ img, LookupImage env X w = (Some img, None)
         ∧ validateRepoName R = None
         ∧ ValidateTagName (effective_tag T) = None
         ∧ in_sync w'
         ∧ bound (repos w') (stored_name env R keep) (effective_tag T) = Some (ID img).
Proof.
  unfold Tag, SetLoad. fold (effective_tag T).
  destruct (LookupImage env X w) as [img [err |]]; [intros [=] |].
  destruct (validateRepoName R); [intros [=] |].
  destruct (ValidateTagName (effective_tag T)); [intros [=] |].
  destruct (reload w) as [[err |] w1]; [intros [=] |].
  cbv zeta.
  assert (Hfin : ∀ repo w0 res w2,
             bind_and_save (stored_name env R keep) (effective_tag T) repo img w0
             = (res, w2) →
             (res, w2) = (Return None, w') →
             ∃ i, (img, @None error) = (Some i, None)
                  ∧ @None error = None ∧ @None error = None ∧ in_sync w'
                  ∧ bound (repos w') (stored_name env R keep) (effective_tag T)
                    = Some (ID i)).
  { intros repo w0 res w2 Hb [= -> ->].
    apply bind_and_save_success in Hb as (i & -> & Hsync & Hrs).
    exists i. rewrite Hrs. auto using bound_insert. }
  destruct (repos w1 !! stored_name env R keep) as [r |].
  - destruct (r !! effective_tag T) as [old |].
    + destruct force; cbn [negb]; [| intros [=]].
      destruct img as [i |]; [| intros [=]].
      destruct (bind_and_save _ _ r (Some i) w1) as [res w2] eqn:Hb.
      intros H. apply (Hfin r w1 res w2 Hb). congruence.
    + destruct (bind_and_save _ _ r img w1) as [res w2] eqn:Hb.
      intros H. apply (Hfin r w1 res w2 Hb). congruence.
  - destruct (bind_and_save _ _ ∅ img _) as [res w2] eqn:Hb.
    intros H. apply (Hfin _ _ res w2 Hb). congruence.
Qed.

(** After [Tag] of R:T has succeeded, a second [Tag] of R:T without
    force fails with a Conflict that names the image of the first, and
    leaves the store as the first one left it. *)
Lemma Tag_then_Tag_conflict R T X Y force keep w w' imgY :
  Tag env R T X force keep w = (Return None, w') →
  LookupImage env Y w' = (imgY, None) →
  ∃ img, LookupImage env X w = (Some img, None)
         ∧ Tag env R T Y false keep w'
           = (Return (Some (ErrConflictTag (effective_tag T) (ID img))), w').
Proof.
  intros H1 HY.
  destruct (Tag_success R T X force keep w w' H1) as (img & HX & HR & HT & Hs & Hb).
  exists img. split; [exact HX |].
  unfold bound in Hb.
  destruct (repos w' !! stored_name env R keep) as [r |] eqn:Hr; [| discriminate Hb].
  cbn in Hb. unfold Tag.
  rewrite (SetLoad_existing_no_force env R T Y keep None w' w' imgY r (ID img));
    auto using reload_in_sync.
Qed.

End TagTwice.

(** ** The digest pattern matches inside a string *)

Section DigestPattern.

Lemma upto_class_reach p n (l t : list ascii) :
  forallb p l = true → (List.length l ≤ n)%nat →
  In (false, t) (regexp.upto (regexp.run (Class p)) n (false, (l ++ t)%list)).
Proof.
  revert n. induction l as [| c l IH]; intros n Hp Hn.
  - destruct n; left; reflexivity.
  - destruct n as [| n]; [cbn in Hn; lia |].
    cbn in Hp. apply andb_prop in Hp as [Hc Hl].
    cbn [regexp.upto]. right.
    cbn [app regexp.run snd]. rewrite Hc. cbn [flat_map]. rewrite app_nil_r.
    apply IH; [exact Hl | cbn in Hn; lia].
Qed.

Lemma plus_class_reach p b a (l t : list ascii) :
  p a = true → forallb p l = true →
  In (false, t) (regexp.run (Repeat (Class p) 1 None) (b, a :: (l ++ t)%list)).
Proof.
  intros Ha Hl. cbn [regexp.run snd regexp.exactly flat_map]. rewrite Ha.
  cbn [flat_map app]. rewrite app_nil_r.
  apply upto_class_reach; [exact Hl |].
  cbn [List.length]. rewrite length_app. lia.
Qed.

Lemma validDigest_reach b a algo h hx (post : list ascii) :
  digest_algo a = true → forallb digest_algo algo = true →
  hex h = true → forallb hex hx = true →
  In (false, post)
    (regexp.run validDigest
       (b, a :: (algo ++ ":"%char :: h :: (hx ++ post))%list)).
Proof.
  intros Ha Halgo Hh Hhx. unfold validDigest.
  change (In (false, post)
            (flat_map (regexp.run (Cat (Class (Ascii.eqb ":"))
                                     (Repeat (Class hex) 1 None)))
               (regexp.run (Repeat (Class digest_algo) 1 None)
                  (b, a :: (algo ++ ":"%char :: h :: (hx ++ post))%list)))).
  apply in_flat_map. exists (false, (":"%char :: h :: (hx ++ post))%list).
  split; [apply plus_class_reach; assumption |].
  change (In (false, post)
            (flat_map (regexp.run (Repeat (Class hex) 1 None))
               ([(false, h :: (hx ++ post)%list)] ++ []))).
  rewrite app_nil_r. cbn [flat_map]. rewrite app_nil_r.
  apply plus_class_reach; assumption.
Qed.

(** [validateDigest] accepts every string that holds a digest somewhere:
    any characters, then characters of the first class, a colon and
    hexadecimal digits, then any characters. *)
Lemma validateDigest_accepts_inside (pre post algo hx : list ascii) a h :
  digest_algo a = true → forallb digest_algo algo = true →
  hex h = true → forallb hex hx = true →
  validateDigest
    (string_of_list_ascii
       (pre ++ a :: algo ++ ":"%char :: h :: hx ++ post)%list) = None.
Proof.
  intros Ha Halgo Hh Hhx. unfold validateDigest.
  set (d := (a :: algo ++ ":"%char :: h :: hx ++ post)%list).
  assert (Hne : String.eqb (string_of_list_ascii (pre ++ d)%list) EmptyString = false).
  { destruct pre; reflexivity. }
  rewrite Hne.
  assert (Hm : MatchString validDigest (string_of_list_ascii (pre ++ d)%list) = true).
  { unfold MatchString. rewrite list_ascii_of_string_of_list_ascii.
    apply existsb_exists. exists (List.length pre). split.
    - apply in_seq. rewrite length_app. lia.
    - unfold matches_at. rewrite drop_app_length.
      pose proof (validDigest_reach (Nat.eqb (List.length pre) 0) a algo h hx post
                    Ha Halgo Hh Hhx) as Hin.
      fold d in Hin. destruct (regexp.run validDigest _); [destruct Hin | reflexivity]. }
  rewrite Hm. reflexivity.
Qed.

End DigestPattern.

(** * Further properties of tags.go *)

(** ** [Repository.Update] and [Repository.Contains] *)

Section RepositoryMaps.
Context (env : Env).

Lemma range_refs_elem (u : gmap string string) k v :
  range_ok env → (k, v) ∈ range_refs env u ↔ u !! k = Some v.
Proof.
  intros [_ Hperm]. rewrite (Hperm u). apply elem_of_map_to_list.
Qed.

Lemma range_refs_NoDup (u : gmap string string) :
  range_ok env → NoDup (range_refs env u).*1.
Proof.
  intros [_ Hperm]. rewrite (Hperm u). apply NoDup_fst_map_to_list.
Qed.

Lemma foldl_insert_lookup (l : list (string * string)) (r : gmap string string) k :
  NoDup l.*1 →
  foldl (λ r e, <[fst e := snd e]> r) r l !! k
  = match (list_to_map l : gmap string string) !! k with
    | Some v => Some v
    | None => r !! k
    end.
Proof.
  revert r. induction l as [| [k0 v0] l IH]; intros r Hnd.
  - cbn. rewrite lookup_empty. reflexivity.
  - cbn [foldl fst snd]. apply NoDup_cons in Hnd as [Hk0 Hnd].
    rewrite (IH _ Hnd). cbn [list_to_map foldr].
    destruct (decide (k0 = k)) as [-> | Hne].
    + rewrite !lookup_insert_eq.
      rewrite (not_elem_of_list_to_map_1 l k Hk0). reflexivity.
    + rewrite !lookup_insert_ne by exact Hne. reflexivity.
Qed.

Lemma list_to_map_range_refs (u : gmap string string) :
  range_ok env → list_to_map (range_refs env u) = u.
Proof.
  intros Hok. pose proof Hok as [_ Hperm].
  rewrite (list_to_map_proper (range_refs env u) (map_to_list u));
    [apply list_to_map_to_list | apply range_refs_NoDup; exact Hok | apply Hperm].
Qed.

Lemma Update_lookup (r u : gmap string string) k :
  range_ok env →
  Update env r u !! k = match u !! k with Some v => Some v | None => r !! k end.
Proof.
  intros Hok. unfold Update.
  rewrite (foldl_insert_lookup _ r k (range_refs_NoDup u Hok)).
  rewrite (list_to_map_range_refs u Hok). reflexivity.
Qed.

Lemma Contains_lookup (r u : gmap string string) :
  range_ok env →
  Contains env r u = true ↔ ∀ k v, u !! k = Some v → r !! k = Some v.
Proof.
  intros Hok. unfold Contains. rewrite forallb_forall. split.
  - intros H k v Hu.
    apply (range_refs_elem u k v Hok), list_elem_of_In in Hu.
    specialize (H _ Hu). cbn in H.
    destruct (r !! k) as [rv |]; [| discriminate H].
    apply String.eqb_eq in H. congruence.
  - intros H [k v] Hin. apply list_elem_of_In, (range_refs_elem u k v Hok) in Hin.
    cbn. rewrite (H k v Hin). apply String.eqb_refl.
Qed.

(** X1. [Update] gives the union of the two repositories in which the
    entries of [u] win, whatever the order of the iteration. *)
Theorem Update_is_union (r u : gmap string string) :
  range_ok env → Update env r u = u ∪ r.
Proof.
  intros Hok. apply map_eq. intros k.
  rewrite (Update_lookup r u k Hok), lookup_union.
  destruct (u !! k), (r !! k); reflexivity.
Qed.

(** X2. [Contains] holds exactly when every entry of [u] is an entry of
    [r], whatever the order of the iteration. *)
Theorem Contains_iff_subseteq (r u : gmap string string) :
  range_ok env → Contains env r u = true ↔ u ⊆ r.
Proof.
  intros Hok. rewrite (Contains_lookup r u Hok), map_subseteq_spec. reflexivity.
Qed.

(** X3. After [r.Update(u)], [r.Contains(u)] holds; and [Update] changes
    nothing exactly when [Contains] held before. *)
Theorem Update_Contains (r u : gmap string string) :
  range_ok env →
  Contains env (Update env r u) u = true
  ∧ (Update env r u = r ↔ Contains env r u = true).
Proof.
  intros Hok. split; [| split].
  - apply (Contains_lookup _ u Hok). intros k v Hu.
    rewrite (Update_lookup r u k Hok), Hu. reflexivity.
  - intros Heq. apply (Contains_lookup r u Hok). intros k v Hu.
    rewrite <- Heq, (Update_lookup r u k Hok), Hu. reflexivity.
  - intros Hc. apply map_eq. intros k. rewrite (Update_lookup r u k Hok).
    destruct (u !! k) as [v |] eqn:Hu; [| reflexivity].
    symmetry. apply (proj1 (Contains_lookup r u Hok) Hc k v Hu).
Qed.

End RepositoryMaps.

Lemma Update_is_union_witness :
  Update demo.env {[ "latest" := demo_worlds.id_a ]}
    {[ "latest" := demo_worlds.id_b; "v1" := demo_worlds.id_a ]}
  = {[ "latest" := demo_worlds.id_b; "v1" := demo_worlds.id_a ]}
    ∪ {[ "latest" := demo_worlds.id_a ]}.
Proof. exact (Update_is_union demo.env _ _ (proj1 demo_range_ok)). Defined.

Lemma Contains_iff_subseteq_witness :
  Contains demo.env {[ "latest" := demo_worlds.id_b; "v1" := demo_worlds.id_a ]}
    {[ "v1" := demo_worlds.id_a ]} = true.
Proof.
  apply (Contains_iff_subseteq demo.env _ _ (proj1 demo_range_ok)).
  apply map_subseteq_spec. intros k v H.
  apply lookup_singleton_Some in H as [<- <-]. vm_compute. reflexivity.
Defined.

Lemma Update_Contains_witness :
  Contains demo.env
    (Update demo.env {[ "latest" := demo_worlds.id_a ]} {[ "v1" := demo_worlds.id_b ]})
    {[ "v1" := demo_worlds.id_b ]} = true.
Proof. exact (proj1 (Update_Contains demo.env _ _ (proj1 demo_range_ok))). Defined.

(** ** [sort.Strings] *)

Section SortStrings.

Lemma ascii_compare_N a b :
  Ascii.compare a b = N.compare (N_of_ascii a) (N_of_ascii b).
Proof. reflexivity. Qed.

Lemma string_le_trans_lemma a b c :
  string_le a b → string_le b c → string_le a c.
Proof.
  unfold string_le, String.leb. revert b c.
  induction a as [| x a IH]; intros [| y b] [| z c]; cbn; try congruence.
  rewrite !ascii_compare_N.
  destruct (N.compare_spec (N_of_ascii x) (N_of_ascii y)) as [Hxy | Hxy | Hxy];
    destruct (N.compare_spec (N_of_ascii y) (N_of_ascii z)) as [Hyz | Hyz | Hyz];
    destruct (N.compare_spec (N_of_ascii x) (N_of_ascii z)) as [Hxz | Hxz | Hxz];
    try congruence; try lia.
  apply IH.
Qed.

#[local] Instance string_le_trans : Transitive string_le.
Proof. intros a b c. apply string_le_trans_lemma. Qed.

#[local] Instance string_le_total : Total string_le.
Proof. intros a b. apply String.leb_total. Qed.

#[local] Instance string_le_antisym : AntiSymm eq string_le.
Proof. intros a b. apply String.leb_antisym. Qed.

Lemma sort_Strings_Sorted l : Sorted string_le (sort_Strings l).
Proof. apply Sorted_merge_sort, _. Qed.

Lemma sort_Strings_Permutation l : sort_Strings l ≡ₚ l.
Proof. apply merge_sort_Permutation. Qed.

Lemma sort_Strings_perm_eq l1 l2 : l1 ≡ₚ l2 → sort_Strings l1 = sort_Strings l2.
Proof.
  intros H. apply (Sorted_unique string_le); try apply sort_Strings_Sorted; try apply _.
  rewrite !sort_Strings_Permutation. exact H.
Qed.

Lemma sort_Strings_fixed l : Sorted string_le l → sort_Strings l = l.
Proof.
  intros H. apply (Sorted_unique string_le); try apply _.
  - apply sort_Strings_Sorted.
  - exact H.
  - apply sort_Strings_Permutation.
Qed.

Lemma add_names_Some l ns :
  sort_Strings l = l → add_names (Some l) ns = Some (sort_Strings (l ++ ns)%list).
Proof.
  revert l. induction ns as [| n ns IH]; intros l Hl.
  - cbn. rewrite app_nil_r, Hl. reflexivity.
  - cbn [add_names foldl]. fold (add_names (Some (sort_Strings (l ++ [n])%list)) ns).
    rewrite IH.
    + f_equal. apply sort_Strings_perm_eq.
      rewrite sort_Strings_Permutation, <- app_assoc. reflexivity.
    + apply sort_Strings_fixed, sort_Strings_Sorted.
Qed.

Lemma add_names_None ns :
  add_names None ns = match ns with [] => None | _ :: _ => Some (sort_Strings ns) end.
Proof.
  destruct ns as [| n ns]; [reflexivity |].
  cbn [add_names foldl]. fold (add_names (Some [n]) ns).
  rewrite add_names_Some; [reflexivity |].
  apply sort_Strings_fixed. repeat constructor.
Qed.

End SortStrings.

(** ** [ByID], [ImageName] and [GetRepoRefs] *)

Section ReverseIndex.
Context (env : Env).

Lemma foldl_flat_map {A B C} (f : A → C → A) (g : B → list C) (l : list B) (a : A) :
  foldl f a (flat_map g l) = foldl (λ acc b, foldl f acc (g b)) a l.
Proof.
  revert a. induction l as [| b l IH]; intros a; [reflexivity |].
  cbn. rewrite foldl_app. apply IH.
Qed.

Lemma foldl_ext_eq {A B} (f g : A → B → A) (l : list B) (a : A) :
  (∀ a b, f a b = g a b) → foldl f a l = foldl g a l.
Proof.
  intros H. revert a. induction l as [| b l IH]; intros a; [reflexivity |].
  cbn. rewrite H. apply IH.
Qed.

Lemma ByID_visited w :
  ByID env w = foldl (λ byID p, ByID_add byID (fst p) (snd p)) ∅ (visited env (repos w)).
Proof.
  unfold ByID, visited. rewrite foldl_flat_map.
  apply foldl_ext_eq. intros byID [repoName repository]. cbn [fst snd].
  rewrite foldl_fmap. apply foldl_ext_eq. intros acc [tag id]. reflexivity.
Qed.

Lemma foldl_ByID_add_lookup (l : list (string * string)) byID id :
  foldl (λ byID p, ByID_add byID (fst p) (snd p)) byID l !! id
  = add_names (byID !! id) (snd <$> filter (λ p, fst p = id) l).
Proof.
  revert byID. induction l as [| [i n] l IH]; intros byID; [reflexivity |].
  cbn [foldl fst snd]. rewrite IH. rewrite filter_cons. cbn [fst].
  unfold ByID_add.
  destruct (decide (i = id)) as [-> | Hne].
  - cbn [fmap list_fmap snd add_names foldl].
    destruct (byID !! id) as [names |]; rewrite lookup_insert_eq; reflexivity.
  - destruct (byID !! i) as [names |]; rewrite lookup_insert_ne by exact Hne;
      reflexivity.
Qed.

Lemma flat_map_Permutation_pointwise {A B} (f g : A → list B) (l : list A) :
  (∀ x, f x ≡ₚ g x) → flat_map f l ≡ₚ flat_map g l.
Proof.
  intros H. induction l as [| x l IH]; [reflexivity |].
  cbn. rewrite (H x), IH. reflexivity.
Qed.

Lemma visited_Permutation rs :
  range_ok env → visited env rs ≡ₚ references (ImageReference env) rs.
Proof.
  intros [Hrepos Hrefs]. unfold visited, references.
  etrans; [apply Permutation_flat_map, (Hrepos rs) |].
  apply flat_map_Permutation_pointwise. intros [name r]. cbn [fst snd].
  rewrite (Hrefs r). reflexivity.
Qed.

Lemma visited_names_Permutation rs id :
  range_ok env →
  snd <$> filter (λ p, fst p = id) (visited env rs)
  ≡ₚ names_of (ImageReference env) rs id.
Proof.
  intros Hok. unfold names_of. rewrite (visited_Permutation rs Hok). reflexivity.
Qed.

(** The entry of an ID is the sorted list of its references. *)
Lemma ByID_lookup w id :
  range_ok env →
  ByID env w !! id
  = match names_of (ImageReference env) (repos w) id with
    | [] => None
    | _ :: _ => Some (sort_Strings (names_of (ImageReference env) (repos w) id))
    end.
Proof.
  intros Hok. rewrite ByID_visited, foldl_ByID_add_lookup, lookup_empty, add_names_None.
  pose proof (visited_names_Permutation (repos w) id Hok) as Hperm.
  destruct (snd <$> filter (λ p, fst p = id) (visited env (repos w))) as [| n ns] eqn:Hv.
  - apply Permutation_nil_l in Hperm. rewrite <- Hperm. reflexivity.
  - destruct (names_of (ImageReference env) (repos w) id) as [| n' ns'] eqn:Hn.
    + apply Permutation_nil_r in Hperm. discriminate Hperm.
    + f_equal. apply sort_Strings_perm_eq. exact Hperm.
Qed.

Lemma names_of_elem f rs id name :
  name ∈ names_of f rs id
  ↔ ∃ repo tag, bound rs repo tag = Some id ∧ name = f repo tag.
Proof.
  unfold names_of, references, bound.
  rewrite list_elem_of_fmap. split.
  - intros [[i n] [-> Hin]]. apply list_elem_of_filter in Hin as [Hi Hin].
    cbn in Hi. subst i.
    apply list_elem_of_In, in_flat_map in Hin as [[repo r] [Hr Hin]].
    apply list_elem_of_In, elem_of_map_to_list in Hr.
    apply list_elem_of_In, list_elem_of_fmap in Hin as [[tag i] [Heq Hin]].
    apply elem_of_map_to_list in Hin. cbn in Heq. injection Heq as -> ->.
    exists repo, tag. rewrite Hr. cbn. split; [exact Hin | reflexivity].
  - intros (repo & tag & Hb & ->).
    destruct (rs !! repo) as [r |] eqn:Hr; [| discriminate Hb]. cbn in Hb.
    exists (id, f repo tag). split; [reflexivity |].
    apply list_elem_of_filter. split; [reflexivity |].
    apply list_elem_of_In, in_flat_map. exists (repo, r). split.
    + apply list_elem_of_In, elem_of_map_to_list. exact Hr.
    + apply list_elem_of_In, list_elem_of_fmap. exists (tag, id).
      split; [reflexivity |]. apply elem_of_map_to_list. exact Hb.
Qed.

End ReverseIndex.

Section ReverseIndexProperties.
Context (env : Env).

Lemma names_of_nil f rs id :
  names_of f rs id = [] ↔ ∀ repo tag, bound rs repo tag ≠ Some id.
Proof.
  split.
  - intros Hnil repo tag Hb.
    assert (Hin : f repo tag ∈ names_of f rs id)
      by (apply names_of_elem; eauto).
    rewrite Hnil in Hin. apply not_elem_of_nil in Hin. exact Hin.
  - intros Hno. destruct (names_of f rs id) as [| n ns] eqn:Hn; [reflexivity |].
    assert (Hin : n ∈ names_of f rs id) by (rewrite Hn; apply list_elem_of_here).
    apply names_of_elem in Hin as (repo & tag & Hb & _).
    destruct (Hno repo tag Hb).
Qed.

(** X4. The entry of [ByID] for an image is the list of all references
    bound to it, each as often as it is bound, in ascending order; an
    image without a reference has no entry.  The order of the iteration
    over the maps does not show. *)
Theorem ByID_sorted_references w id :
  range_ok env →
  match ByID env w !! id with
  | None => ∀ repo tag, bound (repos w) repo tag ≠ Some id
  | Some names =>
      names ≠ []
      ∧ Sorted string_le names
      ∧ names ≡ₚ names_of (ImageReference env) (repos w) id
      ∧ ∀ name, name ∈ names ↔
          ∃ repo tag, bound (repos w) repo tag = Some id
                      ∧ name = ImageReference env repo tag
  end.
Proof.
  intros Hok. rewrite (ByID_lookup env w id Hok).
  destruct (names_of (ImageReference env) (repos w) id) as [| n ns] eqn:Hn.
  - exact (proj1 (names_of_nil _ _ _) Hn).
  - split; [| split; [| split]].
    + intros Hnil. pose proof (sort_Strings_Permutation (n :: ns)) as Hp.
      rewrite Hnil in Hp. apply Permutation_nil_l in Hp. discriminate Hp.
    + apply sort_Strings_Sorted.
    + apply sort_Strings_Permutation.
    + intros name. rewrite sort_Strings_Permutation, <- Hn. apply names_of_elem.
Qed.

Lemma names_of_ext f g rs id :
  (∀ repo tag, f repo tag = g repo tag) → names_of f rs id = names_of g rs id.
Proof.
  intros H. unfold names_of, references. do 2 f_equal.
  apply flat_map_ext. intros [repo r]. apply list_fmap_ext. intros i [tag i'] _.
  cbn. rewrite H. reflexivity.
Qed.

(** X5. Two runs of [ByID] on the same store give the same table, even
    when they iterate over the maps in different orders. *)
Theorem ByID_order_independent env2 w :
  range_ok env → range_ok env2 →
  (∀ repo tag, ImageReference env repo tag = ImageReference env2 repo tag) →
  ByID env w = ByID env2 w.
Proof.
  intros Hok Hok2 Href. apply map_eq. intros id.
  rewrite (ByID_lookup env w id Hok), (ByID_lookup env2 w id Hok2).
  rewrite (names_of_ext _ _ (repos w) id Href). reflexivity.
Qed.

Lemma Sorted_head_le x (l : list string) y :
  Sorted string_le (x :: l) → y ∈ x :: l → string_le x y.
Proof.
  intros Hs Hy. apply Sorted_StronglySorted in Hs.
  - apply StronglySorted_inv in Hs as [_ Hall].
    apply elem_of_cons in Hy as [-> | Hy].
    + destruct (String.leb_total x x); assumption.
    + rewrite Forall_forall in Hall. apply Hall. exact Hy.
  - intros a b c. apply string_le_trans_lemma.
Qed.

(** X6. [ImageName] is the least reference bound to the image, in
    byte-wise order; when no reference is bound to it, it is the
    truncated ID. *)
Theorem ImageName_least_reference TruncateID id w :
  range_ok env →
  (ImageName env TruncateID id w = TruncateID id
   ∧ ∀ repo tag, bound (repos w) repo tag ≠ Some id)
  ∨ ((∃ repo tag, bound (repos w) repo tag = Some id
                  ∧ ImageName env TruncateID id w = ImageReference env repo tag)
     ∧ ∀ repo tag, bound (repos w) repo tag = Some id →
         string_le (ImageName env TruncateID id w) (ImageReference env repo tag)).
Proof.
  intros Hok. unfold ImageName. rewrite (ByID_lookup env w id Hok).
  destruct (names_of (ImageReference env) (repos w) id) as [| n ns] eqn:Hn.
  - left. split; [reflexivity | exact (proj1 (names_of_nil _ _ _) Hn)].
  - right. rewrite <- Hn.
    pose proof (sort_Strings_Sorted (names_of (ImageReference env) (repos w) id)) as Hs.
    pose proof (sort_Strings_Permutation (names_of (ImageReference env) (repos w) id)) as Hp.
    destruct (sort_Strings (names_of (ImageReference env) (repos w) id)) as [| x l] eqn:Hx.
    + rewrite Hn in Hp. apply Permutation_nil_l in Hp. discriminate Hp.
    + split.
      * apply (names_of_elem (ImageReference env)). rewrite <- Hp. apply list_elem_of_here.
      * intros repo tag Hb. apply (Sorted_head_le x l); [exact Hs |].
        rewrite Hp. apply names_of_elem. eauto.
Qed.

End ReverseIndexProperties.

Lemma ByID_sorted_references_witness :
  ByID demo.env demo_delete.w_clash !! demo_worlds.id_a = Some ["host:5000:latest"]
  ∧ Sorted string_le ["host:5000:latest"].
Proof.
  pose proof (ByID_sorted_references demo.env demo_delete.w_clash demo_worlds.id_a
                (proj1 demo_range_ok)) as H.
  assert (Hv : ByID demo.env demo_delete.w_clash !! demo_worlds.id_a
               = Some ["host:5000:latest"]) by (vm_compute; reflexivity).
  rewrite Hv in H. split; [exact Hv | apply H].
Defined.

Lemma ByID_order_independent_witness :
  ByID demo.env demo_worlds.w_v1 = ByID demo.env_rev demo_worlds.w_v1.
Proof.
  apply (ByID_order_independent demo.env demo.env_rev);
    [apply demo_range_ok | apply demo_range_ok | reflexivity].
Defined.

Lemma ImageName_least_reference_witness :
  ImageName demo.env (substring 0 12) demo_worlds.id_a demo_worlds.w_v1
  = "docker.io/busybox:v1".
Proof.
  destruct (ImageName_least_reference demo.env (substring 0 12) demo_worlds.id_a
              demo_worlds.w_v1 (proj1 demo_range_ok)) as [[_ Hno] | _].
  - exfalso. apply (Hno "docker.io/busybox" "v1"). vm_compute. reflexivity.
  - vm_compute. reflexivity.
Defined.

Section RepoRefs.
Context (env : Env) (TruncateID : string → string).

Lemma references_elem f rs i n :
  (i, n) ∈ references f rs
  ↔ ∃ repo tag, bound rs repo tag = Some i ∧ n = f repo tag.
Proof.
  unfold references, bound. split.
  - intros Hin.
    apply list_elem_of_In, in_flat_map in Hin as [[repo r] [Hr Hin]].
    apply list_elem_of_In, elem_of_map_to_list in Hr.
    apply list_elem_of_In, list_elem_of_fmap in Hin as [[tag i'] [Heq Hin]].
    apply elem_of_map_to_list in Hin. cbn in Heq. injection Heq as -> ->.
    exists repo, tag. rewrite Hr. cbn. split; [exact Hin | reflexivity].
  - intros (repo & tag & Hb & ->).
    destruct (rs !! repo) as [r |] eqn:Hr; [| discriminate Hb]. cbn in Hb.
    apply list_elem_of_In, in_flat_map. exists (repo, r). split.
    + apply list_elem_of_In, elem_of_map_to_list. exact Hr.
    + apply list_elem_of_In, list_elem_of_fmap. exists (tag, i).
      split; [reflexivity |]. apply elem_of_map_to_list. exact Hb.
Qed.

Lemma GetRepoRefs_visited w :
  GetRepoRefs env TruncateID w
  = foldl (λ reporefs p,
             <[TruncateID (fst p) := (default [] (reporefs !! TruncateID (fst p))
                                      ++ [snd p])%list]> reporefs)
      ∅ (visited env (repos w)).
Proof.
  unfold GetRepoRefs, visited. rewrite foldl_flat_map.
  apply foldl_ext_eq. intros acc [repoName repository]. cbn [fst snd].
  rewrite foldl_fmap. apply foldl_ext_eq. intros acc' [tag id]. reflexivity.
Qed.

Lemma foldl_reporefs_lookup (l : list (string * string))
    (reporefs : gmap string (list string)) short :
  foldl (λ reporefs p,
           <[TruncateID (fst p) := (default [] (reporefs !! TruncateID (fst p))
                                    ++ [snd p])%list]> reporefs)
    reporefs l !! short
  = match snd <$> filter (λ p, TruncateID (fst p) = short) l with
    | [] => reporefs !! short
    | n :: ns => Some (default [] (reporefs !! short) ++ n :: ns)%list
    end.
Proof.
  revert reporefs. induction l as [| [i n] l IH]; intros reporefs; [reflexivity |].
  cbn [foldl fst snd]. rewrite IH, filter_cons. cbn [fst].
  destruct (decide (TruncateID i = short)) as [<- | Hne].
  - cbn [fmap list_fmap snd]. rewrite lookup_insert_eq. cbn [default].
    destruct (snd <$> filter (λ p : string * string, TruncateID (fst p) = TruncateID i) l)
      as [| n' ns']; [reflexivity |].
    unfold id. rewrite <- app_assoc. reflexivity.
  - rewrite lookup_insert_ne by exact Hne. reflexivity.
Qed.

(** X7. The entry of [GetRepoRefs] for a truncated ID holds exactly the
    references of the images whose ID truncates to it, each as often as
    it is bound; a truncated ID of no referenced image has no entry. *)
Theorem GetRepoRefs_references w short :
  range_ok env →
  match GetRepoRefs env TruncateID w !! short with
  | None =>
      ∀ repo tag id, bound (repos w) repo tag = Some id → TruncateID id ≠ short
  | Some names =>
      names ≠ []
      ∧ names ≡ₚ snd <$> filter (λ p, TruncateID (fst p) = short)
                           (references (ImageReference env) (repos w))
      ∧ ∀ name, name ∈ names ↔
          ∃ repo tag id, bound (repos w) repo tag = Some id
                         ∧ TruncateID id = short
                         ∧ name = ImageReference env repo tag
  end.
Proof.
  intros Hok. rewrite GetRepoRefs_visited, foldl_reporefs_lookup, lookup_empty.
  assert (Hperm : snd <$> filter (λ p, TruncateID (fst p) = short) (visited env (repos w))
                  ≡ₚ snd <$> filter (λ p, TruncateID (fst p) = short)
                               (references (ImageReference env) (repos w)))
    by (apply fmap_Permutation, filter_Permutation, visited_Permutation; exact Hok).
  assert (Hel : ∀ name,
             name ∈ snd <$> filter (λ p, TruncateID (fst p) = short)
                              (references (ImageReference env) (repos w))
             ↔ ∃ repo tag id, bound (repos w) repo tag = Some id
                              ∧ TruncateID id = short
                              ∧ name = ImageReference env repo tag).
  { intros name. rewrite list_elem_of_fmap. split.
    - intros [[i n] [-> Hin]]. apply list_elem_of_filter in Hin as [Hi Hin].
      apply references_elem in Hin as (repo & tag & Hb & Hn).
      exists repo, tag, i. auto.
    - intros (repo & tag & i & Hb & Hi & ->).
      exists (i, ImageReference env repo tag). split; [reflexivity |].
      apply list_elem_of_filter. split; [exact Hi |].
      apply references_elem. eauto. }
  destruct (snd <$> filter (λ p, TruncateID (fst p) = short) (visited env (repos w)))
    as [| n ns] eqn:Hv.
  - intros repo tag id Hb Hi.
    assert (Hin : ImageReference env repo tag
                  ∈ snd <$> filter (λ p, TruncateID (fst p) = short)
                              (references (ImageReference env) (repos w)))
      by (apply Hel; exists repo, tag, id; auto).
    rewrite <- Hperm in Hin. apply not_elem_of_nil in Hin. exact Hin.
  - cbn [default app]. split; [discriminate |]. split; [exact Hperm |].
    intros name. rewrite Hperm. apply Hel.
Qed.

End RepoRefs.

Lemma GetRepoRefs_references_witness :
  GetRepoRefs demo.env (substring 0 12) demo_worlds.w_v1 !! "aaaaaaaaaaaa"
  = Some ["docker.io/busybox:v1"]
  ∧ ∀ name, name ∈ ["docker.io/busybox:v1"] ↔
      ∃ repo tag id, bound (repos demo_worlds.w_v1) repo tag = Some id
                     ∧ substring 0 12 id = "aaaaaaaaaaaa"
                     ∧ name = ImageReference demo.env repo tag.
Proof.
  pose proof (GetRepoRefs_references demo.env (substring 0 12) demo_worlds.w_v1
                "aaaaaaaaaaaa" (proj1 demo_range_ok)) as H.
  assert (Hv : GetRepoRefs demo.env (substring 0 12) demo_worlds.w_v1 !! "aaaaaaaaaaaa"
               = Some ["docker.io/busybox:v1"]) by (vm_compute; reflexivity).
  rewrite Hv in H. split; [exact Hv | apply H].
Defined.

(** ** [Delete] *)

Section DeleteProperties.
Context (env : Env).

Lemma getRepositoryList_elem rs repoName n r :
  range_ok env → (n, r) ∈ getRepositoryList env rs repoName → rs !! n = Some r.
Proof.
  intros Hok. unfold getRepositoryList. rewrite !elem_of_app.
  destruct (RepositoryNameHasIndex env repoName).
  - rewrite elem_of_nil. intuition eauto using lookup_entry_elem.
  - rewrite elem_of_app, (other_matches_elem env rs repoName n r Hok).
    intuition eauto using lookup_entry_elem, additional_matches_elem.
Qed.

Lemma Delete_loop_none matching R ref err w :
  ref ≠ EmptyString →
  (∀ n r, (n, r) ∈ matching → r !! ref = None) →
  Delete_loop matching R ref err w
  = ((false, Some (match matching, err with
                   | [], Some e => e
                   | [], None => ErrNoSuchRepository R
                   | _ :: _, _ => ErrNoSuchReference R ref
                   end)), w).
Proof.
  intros Href. revert err. induction matching as [| [name r] matching IH]; intros err Hnone.
  - cbn. destruct err; reflexivity.
  - cbn [Delete_loop].
    destruct (String.eqb_spec ref EmptyString) as [-> | _]; [congruence |].
    rewrite (Hnone name r) by apply list_elem_of_here.
    rewrite IH.
    + destruct matching; reflexivity.
    + intros n r' Hin. apply (Hnone n r'). apply list_elem_of_further. exact Hin.
Qed.

(** X8. What [Delete] answers when there is nothing to delete.  With no
    candidate repository it returns [No such repository]; with
    candidates of which none holds the reference it returns [No such
    reference].  In both cases nothing is written and the store is the
    reloaded one. *)
Theorem Delete_nothing_to_delete R ref w w1 :
  reload w = (None, w1) →
  (getRepositoryList env (repos w1) R = [] →
   Delete env R ref w = ((false, Some (ErrNoSuchRepository R)), w1))
  ∧ (ref ≠ EmptyString →
     getRepositoryList env (repos w1) R ≠ [] →
     (∀ n r, (n, r) ∈ getRepositoryList env (repos w1) R → r !! ref = None) →
     Delete env R ref w = ((false, Some (ErrNoSuchReference R ref)), w1)).
Proof.
  intros Hre. unfold Delete. rewrite Hre. split.
  - intros ->. reflexivity.
  - intros Href Hne Hnone. rewrite (Delete_loop_none _ R ref None w1 Href Hnone).
    destruct (getRepositoryList env (repos w1) R); [congruence | reflexivity].
Qed.

Lemma bound_delete_name (rs : RepoMap) name key :
  bound (delete name rs) name key = None.
Proof. unfold bound. rewrite lookup_delete_eq. reflexivity. Qed.

Lemma bound_other_name (rs rs' : RepoMap) name n key :
  n ≠ name → rs' !! n = rs !! n → bound rs' n key = bound rs n key.
Proof. intros _ H. unfold bound. rewrite H. reflexivity. Qed.

(** The store after one reference was taken out of the repository
    [name], which held [r]. *)
Lemma bound_after_delete_ref (rs : RepoMap) name (r : gmap string string) ref n k :
  rs !! name = Some r →
  bound (if Nat.eqb (size (delete ref r)) 0 then delete name rs
         else <[name := delete ref r]> rs) n k
  = if decide (n = name ∧ k = ref) then None else bound rs n k.
Proof.
  intros Hr. unfold bound.
  destruct (Nat.eqb_spec (size (delete ref r)) 0) as [Hz | Hnz].
  - apply map_size_empty_iff in Hz.
    destruct (decide (n = name)) as [-> | Hn].
    + rewrite lookup_delete_eq, Hr. cbn.
      destruct (decide (name = name ∧ k = ref)) as [_ | Hne]; [reflexivity |].
      assert (Hk : k ≠ ref) by (intros ->; apply Hne; auto).
      rewrite <- (lookup_delete_ne r ref k) by congruence.
      rewrite Hz. rewrite lookup_empty. reflexivity.
    + rewrite lookup_delete_ne by congruence.
      destruct (decide (n = name ∧ k = ref)) as [[? _] | _]; [congruence | reflexivity].
  - destruct (decide (n = name)) as [-> | Hn].
    + rewrite lookup_insert_eq, Hr. cbn.
      destruct (decide (name = name ∧ k = ref)) as [[_ ->] | Hne].
      * apply lookup_delete_eq.
      * apply lookup_delete_ne. intros ->. apply Hne. auto.
    + rewrite lookup_insert_ne by congruence.
      destruct (decide (n = name ∧ k = ref)) as [[? _] | _]; [congruence | reflexivity].
Qed.

Lemma Delete_loop_success matching R ref err w w' :
  ref ≠ EmptyString →
  (∀ n r, (n, r) ∈ matching → repos w !! n = Some r) →
  Delete_loop matching R ref err w = ((true, None), w') →
  ∃ name r, (name, r) ∈ matching ∧ is_Some (r !! ref)
            ∧ in_sync w'
            ∧ repos w' = (if Nat.eqb (size (delete ref r)) 0 then delete name (repos w)
                          else <[name := delete ref r]> (repos w)).
Proof.
  intros Href. revert err.
  induction matching as [| [name r] matching IH]; intros err Hin.
  - cbn. destruct err; intros [=].
  - cbn [Delete_loop].
    destruct (String.eqb_spec ref EmptyString) as [-> | _]; [congruence |].
    destruct (r !! ref) as [old |] eqn:Hold.
    + destruct (save _) as [e w2] eqn:Hs. intros [= -> <-].
      apply save_success in Hs as [Hsync Hst].
      exists name, r. split; [apply list_elem_of_here |].
      split; [rewrite Hold; eauto |]. split; [exact Hsync |].
      unfold repos at 1. rewrite Hst. reflexivity.
    + intros H. apply IH in H as (name' & r' & Hin' & Hrest).
      * exists name', r'. split; [apply list_elem_of_further; exact Hin' | exact Hrest].
      * intros n r0 H0. apply Hin. apply list_elem_of_further. exact H0.
Qed.

(** X9. A [Delete] of a reference that returns true without error has
    taken that reference out of one candidate repository that held it;
    every other binding of the store is as the reload left it, memory
    and file agree, and no repository is left empty by it. *)
Theorem Delete_removes_one_binding R ref w w1 w' :
  range_ok env →
  ref ≠ EmptyString →
  reload w = (None, w1) →
  Delete env R ref w = ((true, None), w') →
  ∃ name, name ∈ fst <$> getRepositoryList env (repos w1) R
          ∧ is_Some (bound (repos w1) name ref)
          ∧ (∀ n k, bound (repos w') n k
                    = if decide (n = name ∧ k = ref) then None
                      else bound (repos w1) n k)
          ∧ in_sync w'
          ∧ ((∀ n r, repos w1 !! n = Some r → r ≠ ∅) →
             ∀ n r, repos w' !! n = Some r → r ≠ ∅).
Proof.
  intros Hok Href Hre. unfold Delete. rewrite Hre. intros HD.
  apply Delete_loop_success in HD as (name & r & Hin & Hsome & Hsync & Hrs);
    [| exact Href | intros n r0; apply getRepositoryList_elem; exact Hok].
  pose proof (getRepositoryList_elem _ _ _ _ Hok Hin) as Hr.
  exists name. split; [| split; [| split; [| split]]].
  - apply list_elem_of_fmap. exists (name, r). split; [reflexivity | exact Hin].
  - unfold bound. rewrite Hr. exact Hsome.
  - intros n k. rewrite Hrs. apply bound_after_delete_ref. exact Hr.
  - exact Hsync.
  - intros Hnonempty n r0. rewrite Hrs.
    destruct (Nat.eqb_spec (size (delete ref r)) 0) as [Hz | Hnz].
    + intros H0. apply lookup_delete_Some in H0 as [_ H0]. eapply Hnonempty; eauto.
    + destruct (decide (name = n)) as [<- | Hn].
      * rewrite lookup_insert_eq. intros [= <-] He. apply Hnz.
        rewrite He. apply map_size_empty.
      * rewrite lookup_insert_ne by exact Hn. apply Hnonempty.
Qed.

(** X10. A [Delete] with an empty reference removes the whole
    repository of the first candidate, whatever it holds, and saves. *)
Theorem Delete_whole_repository R w w1 name r rest :
  reload w = (None, w1) →
  getRepositoryList env (repos w1) R = (name, r) :: rest →
  ∃ e w', Delete env R EmptyString w = ((true, e), w')
          ∧ repos w' = delete name (repos w1)
          ∧ (∀ key, bound (repos w') name key = None)
          ∧ (e = None → in_sync w').
Proof.
  intros Hre Hl. unfold Delete. rewrite Hre, Hl. cbn [Delete_loop String.eqb].
  destruct (save _) as [e w2] eqn:Hs. exists e, w2.
  assert (Hst : store w2 = store (set_Repositories (delete name (repos w1)) w1)).
  { unfold save in Hs. destruct (writes _) as [| [| e' f] ws]; injection Hs as <- <-; reflexivity. }
  assert (Hrs : repos w2 = delete name (repos w1)) by (unfold repos at 1; rewrite Hst; reflexivity).
  split; [reflexivity |]. split; [exact Hrs |]. split.
  - intros key. rewrite Hrs. apply bound_delete_name.
  - intros ->. apply save_success in Hs as [Hsync _]. exact Hsync.
Qed.

End DeleteProperties.

Lemma demo_reload_v1 : reload demo_worlds.w_v1 = (None, demo_worlds.w_v1).
Proof. vm_compute. reflexivity. Qed.

Lemma Delete_nothing_to_delete_witness :
  Delete demo.env "alpine" "v1" demo_worlds.w_v1
  = ((false, Some (ErrNoSuchRepository "alpine")), demo_worlds.w_v1)
  ∧ Delete demo.env "busybox" "v2" demo_worlds.w_v1
    = ((false, Some (ErrNoSuchReference "busybox" "v2")), demo_worlds.w_v1).
Proof.
  split.
  - apply (proj1 (Delete_nothing_to_delete demo.env "alpine" "v1"
                    demo_worlds.w_v1 demo_worlds.w_v1 demo_reload_v1)).
    vm_compute. reflexivity.
  - apply (proj2 (Delete_nothing_to_delete demo.env "busybox" "v2"
                    demo_worlds.w_v1 demo_worlds.w_v1 demo_reload_v1)).
    + discriminate.
    + vm_compute. discriminate.
    + intros n r Hin.
      assert (Hl : getRepositoryList demo.env (repos demo_worlds.w_v1) "busybox"
                   = [("docker.io/busybox", {[ "v1" := demo_worlds.id_a ]})])
        by (vm_compute; reflexivity).
      rewrite Hl in Hin. apply list_elem_of_singleton in Hin. injection Hin as -> ->.
      vm_compute. reflexivity.
Defined.

Lemma Delete_removes_one_binding_witness :
  ∃ name, is_Some (bound (repos demo_worlds.w_v1) name "v1")
          ∧ bound (repos demo_worlds.w0) name "v1" = None
          ∧ in_sync demo_worlds.w0.
Proof.
  destruct (Delete_removes_one_binding demo.env "busybox" "v1"
              demo_worlds.w_v1 demo_worlds.w_v1 demo_worlds.w0
              (proj1 demo_range_ok))
    as (name & _ & Hsome & Hb & Hsync & _).
  - discriminate.
  - exact demo_reload_v1.
  - vm_compute. reflexivity.
  - exists name. split; [exact Hsome |]. split; [| exact Hsync].
    rewrite (Hb name "v1"). destruct (decide (name = name ∧ "v1" = "v1")) as [_ | Hn];
      [reflexivity | exfalso; apply Hn; auto].
Defined.

Lemma Delete_whole_repository_witness :
  ∃ e w', Delete demo.env "busybox" EmptyString demo_worlds.w_v1 = ((true, e), w')
          ∧ repos w' = delete "docker.io/busybox" (repos demo_worlds.w_v1).
Proof.
  destruct (Delete_whole_repository demo.env "busybox" demo_worlds.w_v1 demo_worlds.w_v1
              "docker.io/busybox" {[ "v1" := demo_worlds.id_a ]} [] demo_reload_v1)
    as (e & w' & HD & Hrs & _).
  - vm_compute. reflexivity.
  - exists e, w'. split; [exact HD | exact Hrs].
Defined.

(** ** What [Tag] and [SetDigest] leave behind *)

Section Bindings.
Context (env : Env).

Lemma insert_over_empty (rs : RepoMap) name (r : gmap string string) :
  <[name := r]> (<[name := ∅]> rs) = <[name := r]> rs.
Proof. apply insert_insert_eq. Qed.

(** The store that a successful [Tag] leaves. *)
Lemma Tag_state R T X force keep w w1 w' :
  reload w = (None, w1) →
  Tag env R T X force keep w = (Return None, w') →
  ∃ img, LookupImage env X w = (Some img, None)
         ∧ R ≠ EmptyString ∧ R ≠ "scratch"
         ∧ tag_shape (effective_tag T) = true
         ∧ repos w'
           = <[stored_name env R keep :=
                 <[effective_tag T := ID img]>
                   (default ∅ (repos w1 !! stored_name env R keep))]> (repos w1)
         ∧ in_sync w'.
Proof.
  intros Hre. unfold Tag, SetLoad. fold (effective_tag T).
  destruct (LookupImage env X w) as [img [err |]]; [intros [=] |].
  destruct (validateRepoName R) eqn:HR; [intros [=] |].
  destruct (ValidateTagName (effective_tag T)) eqn:HT; [intros [=] |].
  rewrite Hre. cbv zeta.
  apply validateRepoName_iff in HR as [HR1 HR2].
  apply ValidateTagName_iff in HT.
  assert (Hfin : ∀ repo w0 res w2,
             repos w0 = <[stored_name env R keep := repo]> (repos w1)
             ∨ repos w0 = repos w1 →
             repo = default ∅ (repos w1 !! stored_name env R keep) →
             bind_and_save (stored_name env R keep) (effective_tag T) repo img w0
             = (res, w2) →
             (res, w2) = (Return None, w') →
             ∃ i, (img, @None error) = (Some i, None)
                  ∧ R ≠ EmptyString ∧ R ≠ "scratch"
                  ∧ tag_shape (effective_tag T) = true
                  ∧ repos w'
                    = <[stored_name env R keep :=
                          <[effective_tag T := ID i]>
                            (default ∅ (repos w1 !! stored_name env R keep))]> (repos w1)
                  ∧ in_sync w').
  { intros repo w0 res w2 Hw0 Hrepo Hb [= -> ->].
    apply bind_and_save_success in Hb as (i & -> & Hsync & Hrs).
    exists i. repeat (split; [try reflexivity; assumption |]).
    split; [| exact Hsync].
    rewrite Hrs, <- Hrepo. destruct Hw0 as [-> | ->];
      [apply insert_insert_eq | reflexivity]. }
  destruct (repos w1 !! stored_name env R keep) as [r |] eqn:Hr.
  - destruct (r !! effective_tag T) as [old |].
    + destruct force; cbn [negb]; [| intros [=]].
      destruct img as [i |]; [| intros [=]].
      destruct (bind_and_save _ _ r (Some i) w1) as [res w2] eqn:Hb.
      intros H. apply (Hfin r w1 res w2); auto; congruence.
    + destruct (bind_and_save _ _ r img w1) as [res w2] eqn:Hb.
      intros H. apply (Hfin r w1 res w2); auto; congruence.
  - destruct (bind_and_save _ _ ∅ img _) as [res w2] eqn:Hb.
    intros H. eapply (Hfin ∅ _ res w2); [| reflexivity | exact Hb | congruence].
    left. reflexivity.
Qed.

(** The store that a successful [SetDigest] leaves. *)
Lemma SetDigest_state R D X keep w w1 w' :
  reload w = (None, w1) →
  SetDigest env R D X keep w = (Return None, w') →
  ∃ img, LookupImage env X w = (Some img, None)
         ∧ R ≠ EmptyString ∧ R ≠ "scratch"
         ∧ validateDigest D = None
         ∧ (∀ old, bound (repos w1) (stored_name env R keep) D = Some old →
                   old = ID img)
         ∧ repos w'
           = <[stored_name env R keep :=
                 <[D := ID img]>
                   (default ∅ (repos w1 !! stored_name env R keep))]> (repos w1)
         ∧ in_sync w'.
Proof.
  intros Hre. unfold SetDigest.
  destruct (LookupImage env X w) as [img [err |]]; [intros [=] |].
  destruct (validateRepoName R) eqn:HR; [intros [=] |].
  destruct (validateDigest D) eqn:HD; [intros [=] |].
  rewrite Hre. cbv zeta.
  apply validateRepoName_iff in HR as [HR1 HR2].
  unfold bound.
  destruct (repos w1 !! stored_name env R keep) as [r |] eqn:Hr; cbn [mbind option_bind default].
  - destruct (r !! D) as [old |] eqn:Hold.
    + destruct img as [i |]; [| intros [=]].
      destruct (String.eqb_spec old (ID i)) as [-> | Hne]; cbn [negb]; [| intros [=]].
      intros Hb. apply bind_and_save_success in Hb as (i' & [= <-] & Hsync & Hrs).
      exists i. repeat (split; [try reflexivity; assumption |]).
      split; [intros old' [= <-]; reflexivity |]. split; [exact Hrs | exact Hsync].
    + intros Hb. apply bind_and_save_success in Hb as (i & -> & Hsync & Hrs).
      exists i. repeat (split; [try reflexivity; assumption |]).
      split; [intros old' [=] |]. split; [exact Hrs | exact Hsync].
  - intros Hb. apply bind_and_save_success in Hb as (i & -> & Hsync & Hrs).
    exists i. repeat (split; [try reflexivity; assumption |]).
    split; [intros old' [=] |]. split; [| exact Hsync].
    rewrite Hrs. apply insert_insert_eq.
Qed.

Lemma bound_after_insert (rs : RepoMap) name key id n k :
  bound (<[name := <[key := id]> (default ∅ (rs !! name))]> rs) n k
  = if decide (n = name ∧ k = key) then Some id else bound rs n k.
Proof.
  unfold bound. destruct (decide (n = name)) as [-> | Hn].
  - rewrite lookup_insert_eq. cbn.
    destruct (decide (name = name ∧ k = key)) as [[_ ->] | Hne].
    + apply lookup_insert_eq.
    + rewrite lookup_insert_ne by (intros ->; apply Hne; auto).
      destruct (rs !! name); reflexivity.
  - rewrite lookup_insert_ne by congruence.
    destruct (decide (n = name ∧ k = key)) as [[? _] | _]; [congruence | reflexivity].
Qed.

(** X11. A [Tag] that returns without error was given a repository
    name other than the empty one and [scratch] and a tag of the valid
    shape ([latest] for none).  Afterwards that tag of the repository,
    under its stored name, is bound to the image that was looked up,
    every other binding is as the reload left it, and the file holds
    the store. *)
Theorem Tag_binds_and_keeps_rest R T X force keep w w1 w' :
  reload w = (None, w1) →
  Tag env R T X force keep w = (Return None, w') →
  ∃ img, LookupImage env X w = (Some img, None)
         ∧ R ≠ EmptyString ∧ R ≠ "scratch"
         ∧ tag_shape (effective_tag T) = true
         ∧ (∀ n k, bound (repos w') n k
                   = if decide (n = stored_name env R keep ∧ k = effective_tag T)
                     then Some (ID img) else bound (repos w1) n k)
         ∧ in_sync w'.
Proof.
  intros Hre HT.
  destruct (Tag_state R T X force keep w w1 w' Hre HT)
    as (img & HL & HR1 & HR2 & Hshape & Hrs & Hsync).
  exists img. split; [exact HL |]. split; [exact HR1 |]. split; [exact HR2 |].
  split; [exact Hshape |]. split; [| exact Hsync].
  intros n k. rewrite Hrs. apply bound_after_insert.
Qed.

(** X12. A [SetDigest] that returns without error was given a valid
    repository name and a digest that [validateDigest] accepts, and
    the digest was unbound or bound to the same image already.
    Afterwards the digest is bound to the image, every other binding is
    as the reload left it, and the file holds the store. *)
Theorem SetDigest_binds_and_keeps_rest R D X keep w w1 w' :
  reload w = (None, w1) →
  SetDigest env R D X keep w = (Return None, w') →
  ∃ img, LookupImage env X w = (Some img, None)
         ∧ R ≠ EmptyString ∧ R ≠ "scratch"
         ∧ validateDigest D = None
         ∧ (∀ old, bound (repos w1) (stored_name env R keep) D = Some old →
                   old = ID img)
         ∧ (∀ n k, bound (repos w') n k
                   = if decide (n = stored_name env R keep ∧ k = D)
                     then Some (ID img) else bound (repos w1) n k)
         ∧ in_sync w'.
Proof.
  intros Hre HS.
  destruct (SetDigest_state R D X keep w w1 w' Hre HS)
    as (img & HL & HR1 & HR2 & HD & Hold & Hrs & Hsync).
  exists img. split; [exact HL |]. split; [exact HR1 |]. split; [exact HR2 |].
  split; [exact HD |]. split; [exact Hold |]. split; [| exact Hsync].
  intros n k. rewrite Hrs. apply bound_after_insert.
Qed.

(** X20. [reload] keeps a repository that is in memory and not in the
    file (it unmarshals into the existing map).  So when another process
    has removed a repository from the file, the next [Tag] of another
    repository that succeeds writes it back. *)
Theorem Tag_writes_back_memory_only_repository R T X force keep w d w' n r :
  file w = FileDoc d →
  d !! n = None →
  repos w !! n = Some r →
  n ≠ stored_name env R keep →
  Tag env R T X force keep w = (Return None, w') →
  ∃ d', file w' = FileDoc d' ∧ d' !! n = Some r.
Proof.
  intros Hf Hd Hn Hne HT.
  pose proof (reload_doc w d Hf) as Hre.
  destruct (Tag_state R T X force keep w _ w' Hre HT)
    as (img & _ & _ & _ & _ & Hrs & Hsync).
  exists (repos w'). split; [exact Hsync |].
  rewrite Hrs. rewrite lookup_insert_ne by congruence.
  change (repos (set_Repositories (d ∪ repos w) w)) with (d ∪ repos w).
  rewrite lookup_union_r by exact Hd. exact Hn.
Qed.

Lemma bind_and_save_no_error normalized key repo img w e w' :
  writes w = [] → bind_and_save normalized key repo img w ≠ (Return (Some e), w').
Proof.
  intros Hw. unfold bind_and_save, save. destruct img; [| discriminate].
  cbn. rewrite Hw. discriminate.
Qed.

Lemma Delete_loop_error matching R ref err w b e w' :
  writes w = [] →
  Delete_loop matching R ref err w = ((b, Some e), w') → w' = w.
Proof.
  intros Hw. revert err. induction matching as [| [name r] matching IH]; intros err.
  - cbn. destruct err; intros [= _ _ <-]; reflexivity.
  - cbn [Delete_loop]. destruct (String.eqb ref EmptyString).
    + unfold save. cbn. rewrite Hw. intros [=].
    + destruct (r !! ref).
      * unfold save. cbn. rewrite Hw. intros [=].
      * apply IH.
Qed.

(** X13. An operation that starts with memory and file in agreement
    and returns an error, when no write fails, has changed neither the
    store nor the file. *)
Theorem error_leaves_world_unchanged w :
  in_sync w → writes w = [] →
  (∀ R T X force keep e w',
      Tag env R T X force keep w = (Return (Some e), w') → w' = w)
  ∧ (∀ R D X keep e w',
      SetDigest env R D X keep w = (Return (Some e), w') → w' = w)
  ∧ (∀ R ref b e w',
      Delete env R ref w = ((b, Some e), w') → w' = w).
Proof.
  intros Hsync Hw. pose proof (reload_in_sync w Hsync) as Hre.
  split; [| split].
  - intros R T X force keep e w'. unfold Tag, SetLoad.
    destruct (LookupImage env X w) as [img [err |]]; [intros [= _ <-]; reflexivity |].
    destruct (validateRepoName R); [intros [= _ <-]; reflexivity |].
    destruct (ValidateTagName _); [intros [= _ <-]; reflexivity |].
    rewrite Hre. cbv zeta.
    destruct (repos w !! stored_name env R keep) as [r |].
    + destruct (r !! _) as [old |].
      * destruct force; cbn [negb]; [| intros [= _ <-]; reflexivity].
        destruct img as [i |]; [| intros [=]].
        destruct (bind_and_save _ _ r (Some i) w) as [res w2] eqn:Hb.
        intros [= -> <-]. exfalso. exact (bind_and_save_no_error _ _ _ _ _ _ _ Hw Hb).
      * destruct (bind_and_save _ _ r img w) as [res w2] eqn:Hb.
        intros [= -> <-]. exfalso. exact (bind_and_save_no_error _ _ _ _ _ _ _ Hw Hb).
    + destruct (bind_and_save _ _ ∅ img _) as [res w2] eqn:Hb.
      intros [= -> <-]. exfalso.
      refine (bind_and_save_no_error _ _ _ _ _ _ _ _ Hb). exact Hw.
  - intros R D X keep e w'. unfold SetDigest.
    destruct (LookupImage env X w) as [img [err |]]; [intros [= _ <-]; reflexivity |].
    destruct (validateRepoName R); [intros [= _ <-]; reflexivity |].
    destruct (validateDigest D); [intros [= _ <-]; reflexivity |].
    rewrite Hre. cbv zeta.
    destruct (repos w !! stored_name env R keep) as [r |].
    + destruct (r !! D) as [old |].
      * destruct img as [i |]; [| intros [=]].
        destruct (negb _); [intros [= _ <-]; reflexivity |].
        intros Hb. exfalso. exact (bind_and_save_no_error _ _ _ _ _ _ _ Hw Hb).
      * intros Hb. exfalso. exact (bind_and_save_no_error _ _ _ _ _ _ _ Hw Hb).
    + intros Hb. exfalso. refine (bind_and_save_no_error _ _ _ _ _ _ _ _ Hb). exact Hw.
  - intros R ref b e w'. unfold Delete. rewrite Hre.
    apply Delete_loop_error. exact Hw.
Qed.

End Bindings.

Lemma demo_reload_w0 : reload demo_worlds.w0 = (None, demo_worlds.w0).
Proof. vm_compute. reflexivity. Qed.

Lemma Tag_binds_and_keeps_rest_witness :
  ∃ img, LookupImage demo.env demo_worlds.id_a demo_worlds.w0 = (Some img, None)
         ∧ tag_shape (effective_tag "v1") = true
         ∧ in_sync demo_worlds.w_v1.
Proof.
  destruct (Tag_binds_and_keeps_rest demo.env "busybox" "v1" demo_worlds.id_a false false
              demo_worlds.w0 demo_worlds.w0 demo_worlds.w_v1 demo_reload_w0)
    as (img & HL & _ & _ & HT & _ & Hs).
  - vm_compute. reflexivity.
  - exists img. auto.
Defined.

Lemma SetDigest_binds_and_keeps_rest_witness :
  ∃ img, LookupImage demo.env demo_worlds.id_a demo_worlds.w0 = (Some img, None)
         ∧ validateDigest demo_worlds.dgst = None
         ∧ in_sync demo_worlds.w_dgst.
Proof.
  destruct (SetDigest_binds_and_keeps_rest demo.env "busybox" demo_worlds.dgst
              demo_worlds.id_a false
              demo_worlds.w0 demo_worlds.w0 demo_worlds.w_dgst demo_reload_w0)
    as (img & HL & _ & _ & HD & _ & _ & Hs).
  - vm_compute. reflexivity.
  - exists img. auto.
Defined.

Lemma error_leaves_world_unchanged_witness :
  snd (Tag demo.env "busybox" "v1" demo_worlds.id_b false false demo_worlds.w_v1)
  = demo_worlds.w_v1.
Proof.
  assert (Hs : in_sync demo_worlds.w_v1) by reflexivity.
  destruct (error_leaves_world_unchanged demo.env demo_worlds.w_v1 Hs eq_refl)
    as (HT & _ & _).
  assert (Hres : fst (Tag demo.env "busybox" "v1" demo_worlds.id_b false false
                        demo_worlds.w_v1)
                 = Return (Some (ErrConflictTag "v1" demo_worlds.id_a)))
    by (vm_compute; reflexivity).
  destruct (Tag demo.env "busybox" "v1" demo_worlds.id_b false false demo_worlds.w_v1)
    as [res w'] eqn:E.
  cbn [fst snd] in *. subst res. exact (HT _ _ _ _ _ _ _ E).
Defined.

(** ** [GetImage] *)

Section GetImageProperties.
Context (env : Env).

Lemma find_exact_Some (l : list (string * gmap string string)) ref rev :
  find_exact l ref = Some rev →
  ∃ before name r after,
    l = (before ++ (name, r) :: after)%list
    ∧ (∀ n' r', (n', r') ∈ before → r' !! ref = None)
    ∧ r !! ref = Some rev.
Proof.
  induction l as [| [name r] l IH]; [intros [=] |].
  cbn. destruct (r !! ref) as [rev' |] eqn:Hr.
  - intros [= ->]. exists [], name, r, l. split; [reflexivity |].
    split; [| exact Hr]. intros n' r' Hin. apply not_elem_of_nil in Hin. contradiction.
  - intros H. apply IH in H as (before & name' & r' & after & -> & Hbefore & Hrev).
    exists ((name, r) :: before), name', r', after. split; [reflexivity |].
    split; [| exact Hrev]. intros n0 r0 Hin.
    apply elem_of_cons in Hin as [[= -> ->] | Hin]; [exact Hr | eauto].
Qed.

Lemma find_exact_None (l : list (string * gmap string string)) ref :
  find_exact l ref = None → ∀ n r, (n, r) ∈ l → r !! ref = None.
Proof.
  induction l as [| [name r] l IH]; intros H n r0 Hin.
  - apply not_elem_of_nil in Hin. contradiction.
  - cbn in H. destruct (r !! ref) eqn:Hr; [discriminate H |].
    apply elem_of_cons in Hin as [[= -> ->] | Hin]; [exact Hr | eauto].
Qed.

Lemma find_prefix_Some (l : list (string * gmap string string)) ref rev :
  range_ok env →
  find_prefix env l ref = Some rev →
  ∃ name r key, (name, r) ∈ l ∧ r !! key = Some rev
                ∧ strings.HasPrefix rev ref = true.
Proof.
  intros Hok. induction l as [| [name r] l IH]; [intros [=] |].
  cbn. destruct (List.find _ (range_refs env r)) as [[key rev'] |] eqn:Hf.
  - intros [= ->]. apply find_some in Hf as [Hin Hp].
    apply list_elem_of_In, (range_refs_elem env r key rev Hok) in Hin.
    exists name, r, key. split; [apply list_elem_of_here | auto].
  - intros H. apply IH in H as (name' & r' & key & Hin & Hrest).
    exists name', r', key. split; [apply list_elem_of_further; exact Hin | exact Hrest].
Qed.

Lemma find_prefix_None (l : list (string * gmap string string)) ref :
  range_ok env →
  find_prefix env l ref = None →
  ∀ n r key rev, (n, r) ∈ l → r !! key = Some rev →
                 strings.HasPrefix rev ref = false.
Proof.
  intros Hok. induction l as [| [name r] l IH]; intros H n r0 key rev Hin Hrev.
  - apply not_elem_of_nil in Hin. contradiction.
  - cbn in H. destruct (List.find _ (range_refs env r)) as [[k v] |] eqn:Hf;
      [discriminate H |].
    apply elem_of_cons in Hin as [[= -> ->] | Hin]; [| eauto].
    apply (range_refs_elem env r key rev Hok), list_elem_of_In in Hrev.
    exact (find_none _ _ Hf _ Hrev).
Qed.

(** X14. [GetImage] asks the graph for the image that the first
    candidate repository holding the key [refOrID] binds it to.  When no
    candidate holds the key, it asks for an image, bound in a candidate,
    whose ID starts with [refOrID].  When there is none either, it
    returns neither image nor error. *)
Theorem GetImage_key_then_prefix R ref w :
  range_ok env →
  (∃ before name r after rev,
      getRepositoryList env (repos w) R = (before ++ (name, r) :: after)%list
      ∧ (∀ n' r', (n', r') ∈ before → r' !! ref = None)
      ∧ r !! ref = Some rev
      ∧ GetImage env R ref w = graph_Get env rev)
  ∨ ((∀ n r, (n, r) ∈ getRepositoryList env (repos w) R → r !! ref = None)
     ∧ ∃ name r key rev,
         (name, r) ∈ getRepositoryList env (repos w) R
         ∧ r !! key = Some rev
         ∧ strings.HasPrefix rev ref = true
         ∧ GetImage env R ref w = graph_Get env rev)
  ∨ ((∀ n r key rev, (n, r) ∈ getRepositoryList env (repos w) R →
                     r !! key = Some rev →
                     key ≠ ref ∧ strings.HasPrefix rev ref = false)
     ∧ GetImage env R ref w = (None, None)).
Proof.
  intros Hok. unfold GetImage.
  destruct (find_exact _ ref) as [rev |] eqn:He.
  - left. apply find_exact_Some in He as (before & name & r & after & Hl & Hb & Hr).
    exists before, name, r, after, rev. auto.
  - right. pose proof (find_exact_None _ _ He) as Hnone.
    destruct (find_prefix env _ ref) as [rev |] eqn:Hp.
    + left. split; [exact Hnone |].
      apply (find_prefix_Some _ _ _ Hok) in Hp as (name & r & key & Hin & Hr & Hpre).
      exists name, r, key, rev. auto.
    + right. split; [| reflexivity].
      intros n r key rev Hin Hr. split.
      * intros ->. rewrite (Hnone n r Hin) in Hr. discriminate Hr.
      * exact (find_prefix_None _ _ Hok Hp n r key rev Hin Hr).
Qed.

(** X15. After a [Tag] with [keepUnqualified] false has succeeded,
    [GetImage] of the same repository and tag asks the graph for the
    image that was tagged, provided no repository stored under the name
    as given binds that tag itself. *)
Theorem Tag_then_GetImage R T X force w w' :
  Tag env R T X force false w = (Return None, w') →
  R = NormalizeLocalName env R ∨ bound (repos w') R (effective_tag T) = None →
  ∃ img, LookupImage env X w = (Some img, None)
         ∧ GetImage env R (effective_tag T) w' = graph_Get env (ID img).
Proof.
  intros HT Hexact.
  destruct (Tag_success env R T X force false w w' HT) as (img & HL & _ & _ & _ & Hb).
  exists img. split; [exact HL |].
  unfold stored_name in Hb. cbn [andb] in Hb.
  unfold GetImage, getRepositoryList.
  unfold bound in Hb.
  destruct (repos w' !! NormalizeLocalName env R) as [r |] eqn:Hr; [| discriminate Hb].
  cbn in Hb.
  unfold lookup_entry at 1.
  destruct (repos w' !! R) as [r0 |] eqn:HR0.
  - cbn [app find_exact].
    destruct Hexact as [Heq | Hnone].
    + rewrite <- Heq in Hr. rewrite HR0 in Hr. injection Hr as ->.
      rewrite Hb. reflexivity.
    + unfold bound in Hnone. rewrite HR0 in Hnone. cbn in Hnone. rewrite Hnone.
      unfold lookup_entry at 1. rewrite Hr. cbn [app find_exact]. rewrite Hb. reflexivity.
  - cbn [app]. unfold lookup_entry at 1. rewrite Hr. cbn [app find_exact].
    rewrite Hb. reflexivity.
Qed.

End GetImageProperties.

Lemma GetImage_key_then_prefix_witness :
  ∃ name r key rev,
    (name, r) ∈ getRepositoryList demo.env (repos demo_worlds.w_v1) "busybox"
    ∧ r !! key = Some rev
    ∧ strings.HasPrefix rev "aaaa" = true
    ∧ GetImage demo.env "busybox" "aaaa" demo_worlds.w_v1 = graph_Get demo.env rev.
Proof.
  assert (Hl : getRepositoryList demo.env (repos demo_worlds.w_v1) "busybox"
               = [("docker.io/busybox", {[ "v1" := demo_worlds.id_a ]})])
    by (vm_compute; reflexivity).
  destruct (GetImage_key_then_prefix demo.env "busybox" "aaaa" demo_worlds.w_v1
              (proj1 demo_range_ok))
    as [(before & name & r & after & rev & Hc & _ & Hr & _)
       | [(_ & name & r & key & rev & H) | (_ & HG)]].
  - exfalso.
    assert (Hin : (name, r) ∈ getRepositoryList demo.env (repos demo_worlds.w_v1) "busybox")
      by (rewrite Hc; apply elem_of_app; right; apply list_elem_of_here).
    rewrite Hl in Hin. apply list_elem_of_singleton in Hin. injection Hin as -> ->.
    vm_compute in Hr. discriminate Hr.
  - exists name, r, key, rev. exact H.
  - exfalso. vm_compute in HG. discriminate HG.
Defined.

Lemma Tag_then_GetImage_witness :
  ∃ img, LookupImage demo.env demo_worlds.id_a demo_worlds.w0 = (Some img, None)
         ∧ GetImage demo.env "busybox" "v1" demo_worlds.w_v1
           = graph_Get demo.env (ID img).
Proof.
  apply (Tag_then_GetImage demo.env "busybox" "v1" demo_worlds.id_a false
           demo_worlds.w0 demo_worlds.w_v1).
  - vm_compute. reflexivity.
  - right. vm_compute. reflexivity.
Defined.

(** ** [SetLoad] with a writer *)

Section RenameNotice.
Context (env : Env).

(** X16. [SetLoad] with force and a writer, on a tag bound to another
    image: when the old ID has at least 12 bytes, the rename notice with
    the first 12 bytes of the old ID is written and the tag is bound to
    the new image; when the old ID is shorter, slicing it panics, after
    the reload and before any change. *)
Theorem SetLoad_rename_notice R T X keep text w w1 img r old :
  LookupImage env X w = (Some img, None) →
  validateRepoName R = None →
  ValidateTagName (effective_tag T) = None →
  reload w = (None, w1) →
  repos w1 !! stored_name env R keep = Some r →
  r !! effective_tag T = Some old →
  old ≠ ID img →
  ((String.length old < 12)%nat →
   SetLoad env R T X true keep (Some text) w
   = (Panic "slice bounds out of range", Some text, w1))
  ∧ ((12 ≤ String.length old)%nat → writes w = [] →
     ∃ w', SetLoad env R T X true keep (Some text) w
           = (Return None,
              Some (text ++ [rename_notice (stored_name env R keep) (effective_tag T)
                               (substring 0 12 old)])%list,
              w')
           ∧ bound (repos w') (stored_name env R keep) (effective_tag T)
             = Some (ID img)
           ∧ in_sync w').
Proof.
  intros HL HR HT Hre Hr Hold Hne.
  destruct (reload_keeps_file w None w1 Hre) as [_ Hws].
  unfold SetLoad. rewrite HL, HR. fold (effective_tag T). rewrite HT, Hre.
  cbv zeta. rewrite Hr, Hold. cbn [negb].
  destruct (String.eqb_spec old (ID img)) as [E | _]; [congruence |].
  split.
  - intros Hlen. apply Nat.ltb_lt in Hlen. rewrite Hlen. reflexivity.
  - intros Hlen Hw. apply Nat.ltb_ge in Hlen. rewrite Hlen.
    unfold bind_and_save, save. cbn. rewrite Hws, Hw.
    eexists. split; [reflexivity |]. split; [apply bound_insert | reflexivity].
Qed.

End RenameNotice.

Lemma SetLoad_rename_notice_witness :
  SetLoad demo.env "busybox" "v1" demo_worlds.id_b true false (Some [])
    demo_short.w_short
  = (Panic "slice bounds out of range", Some [], demo_short.w_short)
  ∧ fst (SetLoad demo.env "busybox" "v1" demo_worlds.id_b true false (Some [])
           demo_worlds.w_v1)
    = (Return None,
       Some [rename_notice "docker.io/busybox" "v1" "aaaaaaaaaaaa"]).
Proof.
  split.
  - apply (proj1 (SetLoad_rename_notice demo.env "busybox" "v1" demo_worlds.id_b false []
                    demo_short.w_short demo_short.w_short
                    {| ID := demo_worlds.id_b |} {[ "v1" := "abc" ]} "abc"
                    ltac:(vm_compute; reflexivity) eq_refl eq_refl
                    ltac:(vm_compute; reflexivity) ltac:(vm_compute; reflexivity)
                    ltac:(vm_compute; reflexivity) ltac:(discriminate))).
    cbn. lia.
  - destruct (proj2 (SetLoad_rename_notice demo.env "busybox" "v1" demo_worlds.id_b false []
                       demo_worlds.w_v1 demo_worlds.w_v1
                       {| ID := demo_worlds.id_b |} {[ "v1" := demo_worlds.id_a ]}
                       demo_worlds.id_a
                       ltac:(vm_compute; reflexivity) eq_refl eq_refl
                       ltac:(vm_compute; reflexivity) ltac:(vm_compute; reflexivity)
                       ltac:(vm_compute; reflexivity) ltac:(discriminate)))
      as (w' & HS & _).
    + cbn. lia.
    + reflexivity.
    + rewrite HS. reflexivity.
Defined.

(** ** More on the pools *)

Section PoolProperties.

Lemma poolRemove_returns kind key w :
  pools_ok w → ∃ e w', poolRemove kind key w = (Return e, w').
Proof.
  intros (_ & Hopen & _). unfold poolRemove.
  destruct (String.eqb kind "pull"); [| destruct (String.eqb kind "push")].
  - destruct (pullingPool (store w) !! key) as [c |] eqn:Hc; [| eauto].
    rewrite (close_open _ c) by (apply (Hopen key); left; exact Hc). eauto.
  - destruct (pushingPool (store w) !! key) as [c |] eqn:Hc; [| eauto].
    rewrite (close_open _ c) by (apply (Hopen key); right; exact Hc). eauto.
  - eauto.
Qed.

(** X17. In no state that the pools can reach does [poolRemove] panic:
    a channel found in a pool has not been closed before.  It returns,
    for every kind and key, and the state it leaves is reachable. *)
Theorem poolRemove_never_panics kind key w :
  pool_reachable w →
  ∃ e w', poolRemove kind key w = (Return e, w') ∧ pool_reachable w'.
Proof.
  intros Hreach.
  destruct (poolRemove_returns kind key w (pool_reachable_ok w Hreach)) as (e & w' & Hrem).
  exists e, w'. split; [exact Hrem |].
  exact (reach_remove kind key w e w' Hreach Hrem).
Qed.

(** X18. Acquire, release, acquire: [poolAdd] on a free key followed by
    [poolRemove] leaves both pools as they were, with the channel
    closed; a second [poolAdd] of the key then succeeds with a channel
    that is not the closed one. *)
Theorem poolAdd_poolRemove_poolAdd kind key w :
  kind = "pull" ∨ kind = "push" →
  pullingPool (store w) !! key = None →
  pushingPool (store w) !! key = None →
  ∃ c w1 w2 c' w3,
    poolAdd kind key w = ((Some c, None), w1)
    ∧ poolRemove kind key w1 = (Return None, w2)
    ∧ pullingPool (store w2) = pullingPool (store w)
    ∧ pushingPool (store w2) = pushingPool (store w)
    ∧ chans w2 !! c = Some true
    ∧ poolAdd kind key w2 = ((Some c', None), w3)
    ∧ c' ≠ c
    ∧ chans w3 !! c' = Some false.
Proof.
  intros Hkind Hpl Hps.
  set (c := List.length (chans w)).
  set (hp1 := (chans w ++ [false])%list).
  set (hp2 := <[c := true]> hp1).
  assert (Hc1 : hp1 !! c = Some false) by apply lookup_fresh_chan.
  assert (Hlen : (c < List.length hp1)%nat)
    by (unfold hp1, c; rewrite length_app; cbn; lia).
  assert (Hc2 : hp2 !! c = Some true) by (apply list_lookup_insert_eq; exact Hlen).
  assert (Hlen2 : List.length hp2 = S c)
    by (unfold hp2, hp1, c; rewrite length_insert, length_app; cbn; lia).
  assert (Hc3 : (hp2 ++ [false])%list !! List.length hp2 = Some false)
    by apply lookup_fresh_chan.
  destruct Hkind as [-> | ->].
  - exists c, (set_pools (<[key := c]> (pullingPool (store w))) (pushingPool (store w)) hp1 w),
      (set_pools (pullingPool (store w)) (pushingPool (store w)) hp2 w),
      (List.length hp2),
      (set_pools (<[key := List.length hp2]> (pullingPool (store w)))
         (pushingPool (store w)) (hp2 ++ [false])%list w).
    split; [unfold poolAdd; rewrite Hpl, Hps; reflexivity |].
    split.
    { unfold poolRemove. cbn [String.eqb Ascii.eqb Bool.eqb].
      cbn [store pullingPool pushingPool set_pools chans].
      rewrite lookup_insert_eq, (close_open hp1 c Hc1).
      rewrite delete_insert_eq, (delete_id _ _ Hpl). reflexivity. }
    split; [reflexivity |]. split; [reflexivity |]. split; [exact Hc2 |].
    split; [unfold poolAdd; cbn [store pullingPool pushingPool set_pools chans];
            rewrite Hpl, Hps; reflexivity |].
    split; [lia | exact Hc3].
  - exists c, (set_pools (pullingPool (store w)) (<[key := c]> (pushingPool (store w))) hp1 w),
      (set_pools (pullingPool (store w)) (pushingPool (store w)) hp2 w),
      (List.length hp2),
      (set_pools (pullingPool (store w))
         (<[key := List.length hp2]> (pushingPool (store w))) (hp2 ++ [false])%list w).
    split; [unfold poolAdd; rewrite Hpl, Hps; reflexivity |].
    split.
    { unfold poolRemove. cbn [String.eqb Ascii.eqb Bool.eqb].
      cbn [store pullingPool pushingPool set_pools chans].
      rewrite lookup_insert_eq, (close_open hp1 c Hc1).
      rewrite delete_insert_eq, (delete_id _ _ Hps). reflexivity. }
    split; [reflexivity |]. split; [reflexivity |]. split; [exact Hc2 |].
    split; [unfold poolAdd; cbn [store pullingPool pushingPool set_pools chans];
            rewrite Hpl, Hps; reflexivity |].
    split; [lia | exact Hc3].
Qed.

(** X19. A kind other than pull and push.  [poolRemove] returns
    [Unknown pool type] and changes nothing.  [poolAdd] looks into the
    pools first: for a key in progress it returns the error of that
    pool; for a free key it returns [Unknown pool type] with no channel
    and leaves both pools as they were. *)
Theorem pools_unknown_kind kind key w :
  String.eqb kind "pull" = false → String.eqb kind "push" = false →
  poolRemove kind key w = (Return (Some ErrUnknownPoolType), w)
  ∧ (∀ c, pullingPool (store w) !! key = Some c →
          poolAdd kind key w = ((Some c, Some (ErrPullInProgress key)), w))
  ∧ (pullingPool (store w) !! key = None → pushingPool (store w) !! key = None →
     ∃ w', poolAdd kind key w = ((None, Some ErrUnknownPoolType), w')
           ∧ pullingPool (store w') = pullingPool (store w)
           ∧ pushingPool (store w') = pushingPool (store w)).
Proof.
  intros H1 H2. split; [| split].
  - unfold poolRemove. rewrite H1, H2. reflexivity.
  - intros c Hc. unfold poolAdd. rewrite Hc. reflexivity.
  - intros Hpl Hps. unfold poolAdd. rewrite Hpl, Hps, H1, H2.
    eexists. split; [reflexivity |]. split; reflexivity.
Qed.

End PoolProperties.

Lemma poolRemove_never_panics_witness :
  ∃ e w', poolRemove "pull" "busybox:latest" demo_pools.w_pulling = (Return e, w').
Proof.
  destruct (poolRemove_never_panics "pull" "busybox:latest" demo_pools.w_pulling
              demo_pulling_reachable) as (e & w' & H & _).
  exists e, w'. exact H.
Defined.

Lemma poolAdd_poolRemove_poolAdd_witness :
  ∃ c w1, poolAdd "push" "busybox" demo_worlds.w0 = ((Some c, None), w1).
Proof.
  destruct (poolAdd_poolRemove_poolAdd "push" "busybox" demo_worlds.w0)
    as (c & w1 & _ & _ & _ & H & _).
  - right. reflexivity.
  - reflexivity.
  - reflexivity.
  - exists c, w1. exact H.
Defined.

Lemma pools_unknown_kind_witness :
  poolRemove "pul" "busybox" demo_worlds.w0
  = (Return (Some ErrUnknownPoolType), demo_worlds.w0).
Proof.
  exact (proj1 (pools_unknown_kind "pul" "busybox" demo_worlds.w0 eq_refl eq_refl)).
Defined.

Lemma Tag_writes_back_memory_only_repository_witness :
  ∃ d', file (snd (Tag demo.env "busybox" "v1" demo_worlds.id_a false false
                     demo_memory.w_mem_only)) = FileDoc d'
        ∧ d' !! "docker.io/alpine" = Some {[ "latest" := demo_worlds.id_b ]}.
Proof.
  apply (Tag_writes_back_memory_only_repository demo.env "busybox" "v1"
           demo_worlds.id_a false false demo_memory.w_mem_only ∅).
  - reflexivity.
  - apply lookup_empty.
  - vm_compute. reflexivity.
  - vm_compute. discriminate.
  - vm_compute. reflexivity.
Defined.

(** ** [NewTagStore] *)

Section NewStore.
Context (IsNotExist : error → bool).

(** X21. [NewTagStore] loads the file when it can be read and decoded,
    and creates it, as an empty document, when reading fails with an
    error that [os.IsNotExist] recognizes.  A store that it returns has
    empty pools and agrees with the file.  Any other error of the reload
    is returned, and nothing is written. *)
Theorem NewTagStore_loads_or_creates f ws :
  (∀ w, NewTagStore IsNotExist None f ws = (None, w) →
        in_sync w
        ∧ pullingPool (store w) = ∅ ∧ pushingPool (store w) = ∅
        ∧ match f with
          | FileDoc d => repos w = d ∧ writes w = ws
          | _ => repos w = ∅
          end)
  ∧ (∀ e, f = FileUnreadable e ∨ f = FileCorrupt e → IsNotExist e = false →
          NewTagStore IsNotExist None f ws = (Some e, new_world f ws))
  ∧ (∀ e, f = FileUnreadable e ∨ f = FileCorrupt e → IsNotExist e = true →
          ∀ rest, ws = [] ∨ ws = WriteOk :: rest →
          ∃ w, NewTagStore IsNotExist None f ws = (None, w)
               ∧ file w = FileDoc ∅).
Proof.
  split; [| split].
  - intros w. unfold NewTagStore, reload. cbn [file new_world].
    destruct f as [e | e | d].
    + destruct (IsNotExist e); [| intros [=]].
      destruct (save _) as [[e' |] w2] eqn:Hs; intros [= <-].
      apply save_success in Hs as [Hsync Hst].
      split; [exact Hsync |]. unfold repos. rewrite Hst. auto.
    + destruct (IsNotExist e); [| intros [=]].
      destruct (save _) as [[e' |] w2] eqn:Hs; intros [= <-].
      apply save_success in Hs as [Hsync Hst].
      split; [exact Hsync |]. unfold repos. rewrite Hst. auto.
    + intros [= <-]. unfold in_sync. cbn.
      rewrite (right_id_L ∅ (∪) d). auto.
  - intros e [-> | ->] He; unfold NewTagStore, reload; cbn [file new_world];
      rewrite He; reflexivity.
  - intros e Hf He rest Hws.
    assert (Hsave : ∃ rest', save (new_world f ws)
                             = (None, set_file (FileDoc ∅) rest' (new_world f ws))).
    { unfold save. cbn [writes new_world]. destruct Hws as [-> | ->]; eauto. }
    destruct Hsave as [rest' Hsave].
    destruct Hf as [-> | ->]; unfold NewTagStore, reload; cbn [file new_world];
      rewrite He, Hsave; eexists; split; reflexivity.
Qed.

End NewStore.

Lemma NewTagStore_loads_or_creates_witness :
  NewTagStore (λ e, true) None (FileDoc (repos demo_worlds.w_v1)) []
  = (None, demo_worlds.w_v1)
  ∧ in_sync demo_worlds.w_v1.
Proof.
  assert (H : NewTagStore (λ e, true) None (FileDoc (repos demo_worlds.w_v1)) []
              = (None, demo_worlds.w_v1)) by (vm_compute; reflexivity).
  split; [exact H |].
  exact (proj1 (proj1 (NewTagStore_loads_or_creates (λ e, true)
                         (FileDoc (repos demo_worlds.w_v1)) [])
                  demo_worlds.w_v1 H)).
Defined.

(** ** The languages of the two validators *)

Section ValidatorLanguages.

Lemma word_dot_dash_not_separator c :
  word_dot_dash c = true →
  Ascii.eqb c ":" = false ∧ Ascii.eqb c "/" = false ∧ Ascii.eqb c "@" = false.
Proof.
  destruct c as [[] [] [] [] [] [] [] []]; vm_compute; intros H;
    try discriminate H; repeat split; reflexivity.
Qed.

Lemma word_is_word_dot_dash c : word c = true → word_dot_dash c = true.
Proof. unfold word_dot_dash. intros ->. reflexivity. Qed.

Lemma Contains_forallb (p : ascii → bool) s x :
  (∀ c, p c = true → Ascii.eqb c x = false) →
  forallb p (list_ascii_of_string s) = true →
  strings.Contains s x = false.
Proof.
  intros Hp. induction s as [| c s IH]; [reflexivity |].
  cbn. intros H. apply andb_prop in H as [Hc Hs].
  rewrite (Hp c Hc). apply IH. exact Hs.
Qed.

(** X22. [ValidateTagName] accepts a name exactly when it has one to
    128 characters, the first a letter, a digit or an underscore and the
    others letters, digits, underscores, dots or dashes.  It answers
    [tag name can't be empty] for the empty name and [Illegal tag name]
    for every other one.  A name it accepts holds no colon, slash or
    at-sign. *)
Theorem ValidateTagName_accepts_exactly name :
  (ValidateTagName name = None ↔ tag_shape name = true)
  ∧ (name = EmptyString → ValidateTagName name = Some ErrTagNameEmpty)
  ∧ (name ≠ EmptyString → tag_shape name = false →
     ValidateTagName name = Some (ErrIllegalTagName name))
  ∧ (ValidateTagName name = None →
     strings.Contains name ":" = false
     ∧ strings.Contains name "/" = false
     ∧ strings.Contains name "@" = false).
Proof.
  assert (Hiff : ValidateTagName name = None ↔ tag_shape name = true).
  { unfold ValidateTagName. rewrite MatchString_validTagName.
    destruct (String.eqb_spec name EmptyString) as [-> | Hne].
    - split; intros H; discriminate H.
    - destruct (tag_shape name); cbn; split; intros H; try reflexivity; discriminate H. }
  split; [exact Hiff |]. split; [intros ->; reflexivity |]. split.
  - intros Hne Hs. unfold ValidateTagName. rewrite MatchString_validTagName, Hs.
    destruct (String.eqb_spec name EmptyString); [congruence | reflexivity].
  - intros H. apply Hiff in H. unfold tag_shape in H.
    assert (Hall : forallb word_dot_dash (list_ascii_of_string name) = true).
    { destruct (list_ascii_of_string name) as [| c rest]; [discriminate H |].
      apply andb_prop in H as [H Hrest]. apply andb_prop in H as [Hc _].
      cbn. rewrite (word_is_word_dot_dash c Hc). exact Hrest. }
    repeat split; apply (Contains_forallb word_dot_dash); try exact Hall;
      intros c Hc; apply (word_dot_dash_not_separator c Hc).
Qed.

Lemma upto_class_sound p n b (l : list ascii) b' t :
  In (b', t) (regexp.upto (regexp.run (Class p)) n (b, l)) →
  ∃ l1, l = (l1 ++ t)%list ∧ forallb p l1 = true.
Proof.
  revert b l. induction n as [| n IH]; intros b l.
  - intros [[= _ <-] | []]. exists []. auto.
  - cbn [regexp.upto]. intros [[= _ <-] | Hin]; [exists []; auto |].
    cbn [regexp.run snd] in Hin.
    destruct l as [| c l]; [destruct Hin |].
    destruct (p c) eqn:Hc; [| destruct Hin].
    cbn [flat_map] in Hin. rewrite app_nil_r in Hin.
    apply IH in Hin as (l1 & -> & Hl1).
    exists (c :: l1). cbn. rewrite Hc. auto.
Qed.

Lemma plus_class_sound p b (l : list ascii) b' t :
  In (b', t) (regexp.run (Repeat (Class p) 1 None) (b, l)) →
  ∃ a l1, l = a :: (l1 ++ t)%list ∧ p a = true ∧ forallb p l1 = true.
Proof.
  cbn [regexp.run snd regexp.exactly flat_map].
  destruct l as [| a l]; [intros []|].
  destruct (p a) eqn:Ha; [| intros []].
  cbn [flat_map app]. rewrite app_nil_r. intros Hin.
  apply upto_class_sound in Hin as (l1 & -> & Hl1).
  exists a, l1. auto.
Qed.

Lemma validDigest_sound b (l : list ascii) b' t :
  In (b', t) (regexp.run validDigest (b, l)) →
  ∃ a algo h hx,
    l = a :: (algo ++ ":"%char :: h :: (hx ++ t))%list
    ∧ digest_algo a = true ∧ forallb digest_algo algo = true
    ∧ hex h = true ∧ forallb hex hx = true.
Proof.
  unfold validDigest.
  change (In (b', t)
            (flat_map (regexp.run (Cat (Class (Ascii.eqb ":"))
                                     (Repeat (Class hex) 1 None)))
               (regexp.run (Repeat (Class digest_algo) 1 None) (b, l)))
          → ∃ a algo h hx,
              l = a :: (algo ++ ":"%char :: h :: (hx ++ t))%list
              ∧ digest_algo a = true ∧ forallb digest_algo algo = true
              ∧ hex h = true ∧ forallb hex hx = true).
  intros Hin. apply in_flat_map in Hin as [[b1 l1] [H1 H2]].
  apply plus_class_sound in H1 as (a & algo & -> & Ha & Halgo).
  change (In (b', t)
            (flat_map (regexp.run (Repeat (Class hex) 1 None))
               (regexp.run (Class (Ascii.eqb ":")) (b1, l1)))) in H2.
  apply in_flat_map in H2 as [[b2 l2] [H2 H3]].
  cbn [regexp.run snd] in H2.
  destruct l1 as [| c l1]; [destruct H2 |].
  destruct (Ascii.eqb_spec ":"%char c) as [<- | _]; [| destruct H2].
  destruct H2 as [[= <- <-] | []].
  apply plus_class_sound in H3 as (h & hx & -> & Hh & Hhx).
  exists a, algo, h, hx. auto.
Qed.

(** X23. [validateDigest] accepts exactly the strings that hold a
    digest somewhere: any characters, one or more characters of
    [[a-zA-Z0-9-_+.]], a colon, one or more hexadecimal digits, any
    characters. *)
Theorem validateDigest_accepts_exactly dgst :
  validateDigest dgst = None
  ↔ ∃ pre a algo h hx post,
      dgst = string_of_list_ascii
               (pre ++ a :: algo ++ ":"%char :: h :: hx ++ post)%list
      ∧ digest_algo a = true ∧ forallb digest_algo algo = true
      ∧ hex h = true ∧ forallb hex hx = true.
Proof.
  split.
  - unfold validateDigest.
    destruct (String.eqb dgst EmptyString); [intros [=] |].
    destruct (MatchString validDigest dgst) eqn:Hm; [intros _ | intros [=]].
    unfold MatchString in Hm. apply existsb_exists in Hm as (i & _ & Hi).
    unfold matches_at in Hi.
    destruct (regexp.run validDigest _) as [| [b' t] sts] eqn:Hrun; [discriminate Hi |].
    assert (Hin : In (b', t)
                    (regexp.run validDigest
                       (Nat.eqb i 0, drop i (list_ascii_of_string dgst))))
      by (rewrite Hrun; left; reflexivity).
    apply validDigest_sound in Hin as (a & algo & h & hx & Hl & Hrest).
    exists (take i (list_ascii_of_string dgst)), a, algo, h, hx, t.
    split; [| exact Hrest].
    rewrite <- Hl, take_drop. symmetry. apply string_of_list_ascii_of_string.
  - intros (pre & a & algo & h & hx & post & -> & Ha & Halgo & Hh & Hhx).
    apply validateDigest_accepts_inside; assumption.
Qed.

End ValidatorLanguages.

(** ** [DeleteAll] on names without colons *)

Section SplitNames.

Lemma Contains_append a b c :
  strings.Contains (a +:+ b) c = strings.Contains a c || strings.Contains b c.
Proof.
  induction a as [| x a IH]; [reflexivity |].
  change (String x a +:+ b) with (String x (a +:+ b)).
  cbn [strings.Contains]. destruct (Ascii.eqb x c); [reflexivity | exact IH].
Qed.

Lemma Split_no_separator s c :
  strings.Contains s c = false → strings.Split s c = [s].
Proof.
  induction s as [| x s IH]; [reflexivity |].
  cbn. destruct (Ascii.eqb x c); [discriminate |].
  intros H. rewrite (IH H). reflexivity.
Qed.

Lemma Split_at_separator a b c :
  strings.Contains a c = false →
  strings.Split (a +:+ String c b) c = a :: strings.Split b c.
Proof.
  induction a as [| x a IH].
  - intros _. change (EmptyString +:+ String c b) with (String c b).
    cbn [strings.Split]. rewrite Ascii.eqb_refl. reflexivity.
  - change (String x a +:+ String c b) with (String x (a +:+ String c b)).
    cbn [strings.Split strings.Contains]. destruct (Ascii.eqb x c); [discriminate |].
    intros H. rewrite (IH H). reflexivity.
Qed.

Lemma Split_repo_tag repo tag :
  strings.Contains repo ":" = false → strings.Contains tag ":" = false →
  strings.Contains (repo +:+ ":" +:+ tag) ":" = true
  ∧ strings.Split (repo +:+ ":" +:+ tag) ":" = [repo; tag].
Proof.
  intros Hr Ht. split.
  - rewrite Contains_append. change (":" +:+ tag) with (String ":"%char tag).
    cbn [strings.Contains]. rewrite Ascii.eqb_refl. apply orb_true_r.
  - change (repo +:+ ":" +:+ tag) with (repo +:+ String ":" tag).
    rewrite (Split_at_separator repo tag ":" Hr), (Split_no_separator tag ":" Ht).
    reflexivity.
Qed.

Lemma repo_tag_inj repo1 tag1 repo2 tag2 :
  strings.Contains repo1 ":" = false → strings.Contains tag1 ":" = false →
  strings.Contains repo2 ":" = false → strings.Contains tag2 ":" = false →
  repo1 +:+ ":" +:+ tag1 = repo2 +:+ ":" +:+ tag2 →
  repo1 = repo2 ∧ tag1 = tag2.
Proof.
  intros H1 H2 H3 H4 Heq.
  pose proof (proj2 (Split_repo_tag repo1 tag1 H1 H2)) as S1.
  pose proof (proj2 (Split_repo_tag repo2 tag2 H3 H4)) as S2.
  rewrite Heq, S2 in S1. injection S1 as -> ->. auto.
Qed.

Lemma tag_shape_no_colon name :
  ValidateTagName name = None →
  strings.Contains name ":" = false ∧ name ≠ EmptyString.
Proof.
  intros H. split.
  - apply ValidateTagName_iff in H. unfold tag_shape in H.
    apply (Contains_forallb word_dot_dash).
    + intros c Hc. apply (word_dot_dash_not_separator c Hc).
    + destruct (list_ascii_of_string name) as [| c rest]; [discriminate H |].
      apply andb_prop in H as [H Hrest]. apply andb_prop in H as [Hc _].
      cbn. rewrite (word_is_word_dot_dash c Hc). exact Hrest.
  - intros ->. discriminate H.
Qed.

End SplitNames.

Section DeleteAllTags.
Context (env : Env).

Lemma Delete_exact_binding repo tag w (r : gmap string string) v :
  in_sync w → writes w = [] →
  repos w !! repo = Some r → r !! tag = Some v → tag ≠ EmptyString →
  ∃ w2, Delete env repo tag w = ((true, None), w2)
        ∧ in_sync w2 ∧ writes w2 = []
        ∧ repos w2 = (if Nat.eqb (size (delete tag r)) 0 then delete repo (repos w)
                      else <[repo := delete tag r]> (repos w)).
Proof.
  intros Hsync Hw Hr Hv Htag. unfold Delete. rewrite (reload_in_sync w Hsync).
  destruct (getRepositoryList_exact env (repos w) repo r Hr) as [rest ->].
  cbn [Delete_loop].
  destruct (String.eqb_spec tag EmptyString) as [-> | _]; [congruence |].
  rewrite Hv. unfold save. cbn. rewrite Hw.
  eexists. split; [reflexivity |]. split; [reflexivity |]. split; reflexivity.
Qed.

Lemma DeleteAll_loop_pairs (pairs : list (string * string)) w :
  in_sync w → writes w = [] → NoDup pairs →
  (∀ repo tag, (repo, tag) ∈ pairs →
     strings.Contains repo ":" = false ∧ strings.Contains tag ":" = false
     ∧ tag ≠ EmptyString ∧ is_Some (bound (repos w) repo tag)) →
  ∃ w', DeleteAll_loop env ((λ p, fst p +:+ ":" +:+ snd p) <$> pairs) w = (None, w')
        ∧ in_sync w'
        ∧ ∀ n k, bound (repos w') n k
                 = if decide ((n, k) ∈ pairs) then None else bound (repos w) n k.
Proof.
  revert w. induction pairs as [| [repo tag] pairs IH]; intros w Hsync Hw Hnd Hall.
  - exists w. split; [reflexivity |]. split; [exact Hsync |].
    intros n k. destruct (decide ((n, k) ∈ [])) as [Hin | _]; [| reflexivity].
    apply not_elem_of_nil in Hin. contradiction.
  - apply NoDup_cons in Hnd as [Hnotin Hnd].
    destruct (Hall repo tag (list_elem_of_here _ _)) as (Hrc & Htc & Hte & Hb).
    cbn [fmap list_fmap DeleteAll_loop fst snd].
    destruct (Split_repo_tag repo tag Hrc Htc) as [HC HS]. rewrite HC, HS.
    cbn [nth].
    unfold bound in Hb. destruct (repos w !! repo) as [r |] eqn:Hr;
      [| destruct Hb as [? Hb]; discriminate Hb].
    cbn in Hb. destruct Hb as [v Hv].
    destruct (Delete_exact_binding repo tag w r v Hsync Hw Hr Hv Hte)
      as (w2 & HD & Hsync2 & Hw2 & Hrs2).
    rewrite HD.
    assert (Hb2 : ∀ n k, bound (repos w2) n k
                         = if decide (n = repo ∧ k = tag) then None
                           else bound (repos w) n k).
    { intros n k. rewrite Hrs2. apply bound_after_delete_ref. exact Hr. }
    destruct (IH w2 Hsync2 Hw2 Hnd) as (w' & HL & Hsync' & Hb').
    { intros repo' tag' Hin.
      destruct (Hall repo' tag' (list_elem_of_further _ _ _ Hin)) as (H1 & H2 & H3 & H4).
      split; [exact H1 |]. split; [exact H2 |]. split; [exact H3 |].
      rewrite Hb2. destruct (decide (repo' = repo ∧ tag' = tag)) as [[-> ->] | _];
        [contradiction | exact H4]. }
    exists w'. split; [exact HL |]. split; [exact Hsync' |].
    intros n k. rewrite Hb', Hb2.
    destruct (decide ((n, k) ∈ pairs)) as [Hin | Hnin].
    + destruct (decide ((n, k) ∈ (repo, tag) :: pairs)) as [_ | Hc]; [reflexivity |].
      exfalso. apply Hc. apply list_elem_of_further. exact Hin.
    + destruct (decide (n = repo ∧ k = tag)) as [[-> ->] | Hne].
      * destruct (decide ((repo, tag) ∈ (repo, tag) :: pairs)) as [_ | Hc]; [reflexivity |].
        exfalso. apply Hc. apply list_elem_of_here.
      * destruct (decide ((n, k) ∈ (repo, tag) :: pairs)) as [Hc | _]; [| reflexivity].
        apply elem_of_cons in Hc as [[= -> ->] | Hc]; [exfalso; apply Hne; auto |].
        contradiction.
Qed.

End DeleteAllTags.

Section DeleteAllTagsOnly.
Context (env : Env).
Hypothesis range : range_ok env.
Hypothesis reference_of_tag :
  ∀ repo tag, strings.Contains tag ":" = false →
              ImageReference env repo tag = repo +:+ ":" +:+ tag.

Lemma NoDup_flat_map {A B} (g : A → list B) (l : list A) :
  NoDup l →
  (∀ x, x ∈ l → NoDup (g x)) →
  (∀ x1 x2 y, x1 ∈ l → x2 ∈ l → In y (g x1) → In y (g x2) → x1 = x2) →
  NoDup (flat_map g l).
Proof.
  induction l as [| x l IH]; intros Hnd Hin Hdis; [constructor |].
  apply NoDup_cons in Hnd as [Hx Hnd]. cbn. apply NoDup_app.
  split; [apply Hin, list_elem_of_here |]. split.
  - intros y Hy Hy'. apply list_elem_of_In, in_flat_map in Hy' as [x' [Hx' Hy']].
    apply list_elem_of_In in Hx'.
    assert (x = x').
    { apply (Hdis x x' y); [apply list_elem_of_here | apply list_elem_of_further; exact Hx'
                           | apply list_elem_of_In; exact Hy | exact Hy']. }
    subst x'. contradiction.
  - apply IH; [exact Hnd | |].
    + intros x' Hx'. apply Hin, list_elem_of_further, Hx'.
    + intros x1 x2 y H1 H2. apply Hdis; apply list_elem_of_further; assumption.
Qed.

Lemma bound_colon_free rs repo tag v :
  tags_only rs → bound rs repo tag = Some v →
  strings.Contains repo ":" = false ∧ strings.Contains tag ":" = false
  ∧ tag ≠ EmptyString.
Proof.
  intros Htags Hb. unfold bound in Hb.
  destruct (rs !! repo) as [r |] eqn:Hr; [| discriminate Hb]. cbn in Hb.
  destruct (Htags repo r Hr) as [Hc Hkeys].
  split; [exact Hc |]. apply tag_shape_no_colon. exact (Hkeys tag v Hb).
Qed.

Lemma references_functional rs i1 i2 n :
  tags_only rs →
  (i1, n) ∈ references (ImageReference env) rs →
  (i2, n) ∈ references (ImageReference env) rs →
  i1 = i2.
Proof.
  intros Htags H1 H2.
  apply references_elem in H1 as (repo1 & tag1 & Hb1 & Hn1).
  apply references_elem in H2 as (repo2 & tag2 & Hb2 & Hn2).
  destruct (bound_colon_free rs repo1 tag1 i1 Htags Hb1) as (Hr1 & Ht1 & _).
  destruct (bound_colon_free rs repo2 tag2 i2 Htags Hb2) as (Hr2 & Ht2 & _).
  rewrite (reference_of_tag repo1 tag1 Ht1) in Hn1.
  rewrite (reference_of_tag repo2 tag2 Ht2) in Hn2.
  destruct (repo_tag_inj repo1 tag1 repo2 tag2 Hr1 Ht1 Hr2 Ht2) as [-> ->];
    congruence.
Qed.

Lemma references_NoDup rs :
  tags_only rs → NoDup (references (ImageReference env) rs).
Proof.
  intros Htags. unfold references. apply NoDup_flat_map.
  - apply NoDup_map_to_list.
  - intros [repo r] Hin. apply elem_of_map_to_list in Hin. cbn [fst snd].
    destruct (Htags repo r Hin) as [Hrc Hkeys].
    apply NoDup_fmap_2_strong; [| apply NoDup_map_to_list].
    intros [t1 v1] [t2 v2] H1 H2. cbn [fst snd]. intros [= -> Hn].
    apply elem_of_map_to_list in H1, H2.
    destruct (tag_shape_no_colon t1 (Hkeys t1 _ H1)) as [Hc1 _].
    destruct (tag_shape_no_colon t2 (Hkeys t2 _ H2)) as [Hc2 _].
    rewrite (reference_of_tag repo t1 Hc1), (reference_of_tag repo t2 Hc2) in Hn.
    destruct (repo_tag_inj repo t1 repo t2 Hrc Hc1 Hrc Hc2 Hn) as [_ ->]. reflexivity.
  - intros [repo1 r1] [repo2 r2] [v n] H1 H2 Hy1 Hy2.
    apply elem_of_map_to_list in H1, H2. cbn [fst snd] in Hy1, Hy2.
    apply list_elem_of_In, list_elem_of_fmap in Hy1 as [[t1 v1] [[= -> ->] Hy1]].
    apply list_elem_of_In, list_elem_of_fmap in Hy2 as [[t2 v2] [[= -> Hn] Hy2]].
    apply elem_of_map_to_list in Hy1, Hy2. cbn [fst snd] in Hn.
    destruct (Htags repo1 r1 H1) as [Hrc1 Hk1].
    destruct (Htags repo2 r2 H2) as [Hrc2 Hk2].
    destruct (tag_shape_no_colon t1 (Hk1 t1 _ Hy1)) as [Hc1 _].
    destruct (tag_shape_no_colon t2 (Hk2 t2 _ Hy2)) as [Hc2 _].
    rewrite (reference_of_tag repo1 t1 Hc1), (reference_of_tag repo2 t2 Hc2) in Hn.
    destruct (repo_tag_inj repo1 t1 repo2 t2 Hrc1 Hc1 Hrc2 Hc2 Hn) as [-> _].
    congruence.
Qed.

Lemma names_of_NoDup rs id :
  tags_only rs → NoDup (names_of (ImageReference env) rs id).
Proof.
  intros Htags. unfold names_of. apply NoDup_fmap_2_strong.
  - intros [i1 n1] [i2 n2] H1 H2. cbn [snd]. intros ->.
    apply list_elem_of_filter in H1 as [_ H1]. apply list_elem_of_filter in H2 as [_ H2].
    rewrite (references_functional rs i1 i2 n2 Htags H1 H2). reflexivity.
  - apply NoDup_filter, references_NoDup. exact Htags.
Qed.

Lemma list_preimage {A B} (f : A → B) (P : A → Prop) (l : list B) :
  (∀ y, y ∈ l → ∃ x, P x ∧ y = f x) →
  ∃ xs, l = f <$> xs ∧ Forall P xs.
Proof.
  induction l as [| y l IH]; intros H.
  - exists []. split; [reflexivity | constructor].
  - destruct (H y (list_elem_of_here _ _)) as (x & Hx & ->).
    destruct IH as (xs & -> & Hxs).
    { intros y Hy. apply H. apply list_elem_of_further. exact Hy. }
    exists (x :: xs). split; [reflexivity | constructor; assumption].
Qed.

(** X24. In a store of tags, without colons in the names of its
    repositories, whose memory and file agree and whose writes succeed,
    [DeleteAll] returns no error and removes exactly the references
    bound to the image: afterwards none is bound to it, and every other
    binding is as before. *)
Theorem DeleteAll_removes_every_tag id w :
  tags_only (repos w) → in_sync w → writes w = [] →
  ∃ w', DeleteAll env id w = (None, w')
        ∧ (∀ n k, bound (repos w') n k
                  = if decide (bound (repos w) n k = Some id) then None
                    else bound (repos w) n k)
        ∧ in_sync w'.
Proof.
  intros Htags Hsync Hw. unfold DeleteAll. rewrite (ByID_lookup env w id range).
  destruct (names_of (ImageReference env) (repos w) id) as [| n0 ns0] eqn:Hn.
  - exists w. split; [reflexivity |]. split; [| exact Hsync].
    intros n k. destruct (decide (bound (repos w) n k = Some id)) as [Hb | _];
      [| reflexivity].
    exfalso. exact (proj1 (names_of_nil _ _ _) Hn n k Hb).
  - rewrite <- Hn.
    pose proof (sort_Strings_Permutation (names_of (ImageReference env) (repos w) id))
      as Hperm.
    set (names := sort_Strings (names_of (ImageReference env) (repos w) id)) in *.
    assert (Hnd : NoDup names) by (rewrite Hperm; apply names_of_NoDup; exact Htags).
    assert (Hpre : ∀ y, y ∈ names →
               ∃ p : string * string,
                 bound (repos w) (fst p) (snd p) = Some id
                 ∧ y = fst p +:+ ":" +:+ snd p).
    { intros y Hy. rewrite Hperm in Hy.
      apply names_of_elem in Hy as (repo & tag & Hb & ->).
      exists (repo, tag). split; [exact Hb |].
      destruct (bound_colon_free _ _ _ _ Htags Hb) as (_ & Ht & _).
      apply reference_of_tag. exact Ht. }
    destruct (list_preimage (λ p, fst p +:+ ":" +:+ snd p)
                (λ p, bound (repos w) (fst p) (snd p) = Some id) names Hpre)
      as (pairs & Hnames & Hpairs).
    rewrite Forall_forall in Hpairs.
    assert (Hndp : NoDup pairs) by (rewrite Hnames in Hnd; exact (NoDup_fmap_1 _ _ Hnd)).
    destruct (DeleteAll_loop_pairs env pairs w Hsync Hw Hndp) as (w' & HL & Hsync' & Hb').
    { intros repo tag Hin. specialize (Hpairs _ Hin). cbn in Hpairs.
      destruct (bound_colon_free _ _ _ _ Htags Hpairs) as (H1 & H2 & H3).
      split; [exact H1 |]. split; [exact H2 |]. split; [exact H3 |].
      rewrite Hpairs. eauto. }
    exists w'. split.
    + rewrite Hnames. destruct pairs as [| p pairs'].
      * cbn in Hnames. subst names.
        rewrite Hnames in Hperm. rewrite Hn in Hperm.
        apply Permutation_nil_l in Hperm. discriminate Hperm.
      * exact HL.
    + split; [| exact Hsync']. intros n k. rewrite Hb'.
      destruct (decide ((n, k) ∈ pairs)) as [Hin | Hnin];
        destruct (decide (bound (repos w) n k = Some id)) as [Hb | Hnb];
        try reflexivity.
      * exfalso. apply Hnb. exact (Hpairs _ Hin).
      * exfalso. apply Hnin.
        assert (Hy : ImageReference env n k ∈ names)
          by (rewrite Hperm; apply names_of_elem; eauto).
        destruct (bound_colon_free _ _ _ _ Htags Hb) as (Hnc & Hkc & _).
        rewrite (reference_of_tag n k Hkc), Hnames in Hy.
        apply list_elem_of_fmap in Hy as [[n' k'] [Heq Hin]]. cbn [fst snd] in Heq.
        specialize (Hpairs _ Hin) as Hb2. cbn in Hb2.
        destruct (bound_colon_free _ _ _ _ Htags Hb2) as (Hnc' & Hkc' & _).
        destruct (repo_tag_inj n k n' k' Hnc Hkc Hnc' Hkc' Heq) as [-> ->].
        exact Hin.
Qed.

End DeleteAllTagsOnly.

Lemma demo_reference_of_tag repo tag :
  strings.Contains tag ":" = false →
  ImageReference demo.env repo tag = repo +:+ ":" +:+ tag.
Proof. intros H. cbn. unfold demo.ImageReference. rewrite H. reflexivity. Qed.

Lemma demo_tags_only : tags_only (repos demo_tags.w_tags).
Proof.
  intros repo r Hr. change (repos demo_tags.w_tags) with demo_tags.rs_tags in Hr.
  unfold demo_tags.rs_tags in Hr.
  apply lookup_insert_Some in Hr as [[<- <-] | [_ Hr]].
  - split; [reflexivity |]. intros key v Hk.
    apply lookup_insert_Some in Hk as [[<- _] | [_ Hk]]; [reflexivity |].
    apply lookup_singleton_Some in Hk as [<- _]. reflexivity.
  - apply lookup_singleton_Some in Hr as [<- <-].
    split; [reflexivity |]. intros key v Hk.
    apply lookup_singleton_Some in Hk as [<- _]. reflexivity.
Qed.

Lemma DeleteAll_removes_every_tag_witness :
  ∃ w', DeleteAll demo.env demo_worlds.id_a demo_tags.w_tags = (None, w')
        ∧ bound (repos w') "docker.io/alpine" "latest" = None
        ∧ bound (repos w') "docker.io/busybox" "v1" = None
        ∧ bound (repos w') "docker.io/busybox" "latest" = Some demo_worlds.id_b.
Proof.
  destruct (DeleteAll_removes_every_tag demo.env (proj1 demo_range_ok)
              demo_reference_of_tag demo_worlds.id_a demo_tags.w_tags
              demo_tags_only eq_refl eq_refl) as (w' & HD & Hb & _).
  exists w'. split; [exact HD |].
  rewrite !Hb. repeat split; vm_compute; reflexivity.
Defined.

Lemma ValidateTagName_accepts_exactly_witness :
  ValidateTagName "a/b" = Some (ErrIllegalTagName "a/b")
  ∧ strings.Contains "latest" ":" = false.
Proof.
  destruct (ValidateTagName_accepts_exactly "a/b") as (_ & _ & Hill & _).
  destruct (ValidateTagName_accepts_exactly "latest") as (_ & _ & _ & Hsep).
  split.
  - apply Hill; [discriminate | reflexivity].
  - apply Hsep. reflexivity.
Defined.

(** ** No nil image, no panic *)

Section NoPanic.
Context (env : Env).



End NoPanic.


